(** * Noise functions for robustness benchmarks: a verified model

    Shallow embedding of [src/CharacterNoiseFunctions.py] and
    [src/ImageNoiseFunctions.py].

    Conventions of the embedding.
    - A Python [str] holding text is a list of Unicode code points ([N]).
      Tier and language names are Rocq strings, read as sequences of code
      points below U+0100; [lower] is Python's [str.lower] on that range.
    - The floats of the configuration tables are exact rationals ([Q]);
      [int(x)] of a non-negative product is [Qfloor].  For the three text
      fractions the double-precision product truncates to the same integer
      as the exact one; for the three occlusion ratios the float64 value of
      [int(np.sqrt(ratio) * d)] is the exact floor for every [d] up to
      10^8 (the first disagreement is at [d = 101904649], ratio 0.40).
    - Randomness is an explicit outcome: the list handed back by
      [random.sample] and the stream of raw draws behind [random.choice]
      and [numpy.random.randint].  A counter of draws made so far is
      threaded through the code, so that "no draw happened" is observable.
    - Exceptions are values of [exn]; [print] appends to a log. *)

From Stdlib Require Import ZArith QArith Qround Ascii String List Lia.
From stdpp Require Import gmap strings list fin_maps sorting.

Close Scope Q_scope.
Open Scope nat_scope.

(** ** Python values shared by both modules *)

Inductive exn :=
  TypeError | ValueError | IndexError | FileNotFoundError | IOError | cv2_error.

Inductive result (A : Type) := Ok (a : A) | Raise (e : exn).
Arguments Ok {A} a.
Arguments Raise {A} e.

#[global] Instance exn_eq_dec : EqDecision exn.
Proof. solve_decision. Defined.

(** [str.lower] on one code point below U+0100: the ASCII capitals and the
    Latin-1 capitals (all of U+00C0..U+00DE but the multiplication sign). *)
Definition char_lower (c : ascii) : ascii :=
  let n := N_of_ascii c in
  if ((65 <=? n) && (n <=? 90) || (192 <=? n) && (n <=? 222) && negb (n =? 215))%N
  then ascii_of_N (n + 32) else c.

Fixpoint lower (s : string) : string :=
  match s with
  | EmptyString => EmptyString
  | String c r => String (char_lower c) (lower r)
  end.

(** A text is a sequence of code points. *)
Abbreviation pystr := (list N).

(** [range a b] *)
Definition range (a b : N) : list N := map N.of_nat (seq (N.to_nat a) (N.to_nat b - N.to_nat a)).

Module CharacterNoiseFunctions.

(** NOISE_LEVEL_PERCENTAGES *)
Definition NOISE_LEVEL_PERCENTAGES : gmap string Q :=
  <["low" := (5 # 100)%Q]> (<["medium" := (15 # 100)%Q]> (<["high" := (25 # 100)%Q]> ∅)).

(** string.ascii_letters, string.digits, string.punctuation *)
Definition ascii_letters : pystr := range 97 123 ++ range 65 91.
Definition digits : pystr := range 48 58.
Definition punctuation : pystr := range 33 48 ++ range 58 65 ++ range 91 97 ++ range 123 127.

Definition hindi_alphabet : pystr :=
  [2309; 2310; 2311; 2312; 2313; 2314; 2319; 2320; 2323; 2324; 2325; 2326;
   2327; 2328; 2330; 2331; 2332; 2333; 2335; 2336; 2337; 2338; 2340; 2341;
   2342; 2343; 2344; 2346; 2347; 2348; 2349; 2350; 2351; 2352; 2354; 2357;
   2358; 2359; 2360; 2361]%N
  ++ [46; 44; 33; 63; 39; 32]%N.

Definition igbo_alphabet : pystr :=
  (range 97 123 ++ range 65 91 ++ range 48 58 ++ [32; 46; 44; 33; 63; 39])%N
  ++ [7883; 7882; 7885; 7884; 7909; 7908; 7749; 7748]%N.

Definition english_alphabet : pystr := ascii_letters ++ digits ++ punctuation ++ [32%N].

(** ALPHABETS *)
Definition ALPHABETS : gmap string pystr :=
  <["english" := english_alphabet]>
  (<["hindi" := hindi_alphabet]> (<["igbo" := igbo_alphabet]> ∅)).

Inductive Operation := substitute | delete | insert | swap.

#[global] Instance Operation_eq_dec : EqDecision Operation.
Proof. solve_decision. Defined.

Definition operations : list Operation := [substitute; delete; insert; swap].

(** What the random module hands back during one call: [sampled] is the
    list returned by [random.sample], [drawn k] the raw value behind the
    [k]-th call into the module. *)
Record outcome := Outcome { sampled : list nat; drawn : nat → nat }.

(** The contract of [random.sample(range(n), k)]: [k] distinct members. *)
Definition is_sample (n k : nat) (l : list nat) : Prop :=
  length l = k ∧ NoDup l ∧ Forall (λ j, j < n) l.

#[global] Instance is_sample_dec (n k : nat) (l : list nat) : Decision (is_sample n k l).
Proof. unfold is_sample. apply _. Defined.

(** A line printed by the except branch: the operation and the index. *)
Definition warning : Type := Operation * nat.

Section Engine.
Context (o : outcome).

(** [random.sample(range(n), k)]: one call into the random module. *)
Definition random_sample (n k : nat) (s : nat) : list nat * nat :=
  (sampled o, S s).

(** [random.choice(seq)]: IndexError on an empty sequence (no draw is
    made), else the element picked by the next draw. *)
Definition random_choice {A} (seq : list A) (s : nat) : result A * nat :=
  match seq !! (drawn o s mod length seq) with
  | Some a => (Ok a, S s)
  | None => (Raise IndexError, s)
  end.

(** The loop of lines 113-114: [modifications[idx] = random.choice(operations)]. *)
Fixpoint assign_operations (indices : list nat) (modifications : gmap nat Operation)
    (s : nat) : result (gmap nat Operation) * nat :=
  match indices with
  | [] => (Ok modifications, s)
  | idx :: rest =>
      match random_choice operations s with
      | (Ok op, s') => assign_operations rest (<[idx := op]> modifications) s'
      | (Raise e, s') => (Raise e, s')
      end
  end.

(** The local state of the application loop (lines 116-177), together
    with the draw counter and the printed warnings. *)
Record walk_state := WalkState {
  ws_i : nat;
  ws_new_text_list : pystr;
  ws_processed_indices : gset nat;
  ws_draws : nat;
  ws_printed : list warning
}.

(** Statements of the loop body: state passing with exceptions; the
    state reached when an exception is raised is kept, as in Python. *)
Definition M (A : Type) : Type := walk_state → result A * walk_state.

Definition ret {A} (a : A) : M A := λ st, (Ok a, st).

Definition bind {A B} (m : M A) (f : A → M B) : M B :=
  λ st, match m st with
        | (Ok a, st') => f a st'
        | (Raise e, st') => (Raise e, st')
        end.

(** [try: body except Exception: handler] *)
Definition try_except {A} (body : M A) (handler : M A) : M A :=
  λ st, match body st with
        | (Ok a, st') => (Ok a, st')
        | (Raise _, st') => handler st'
        end.

Notation "'let*' x ':=' m 'in' k" := (bind m (λ x, k))
  (at level 10, x name, m at level 100, k at level 200).

Definition get_i : M nat := λ st, (Ok (ws_i st), st).

Definition is_processed (j : nat) : M bool :=
  λ st, (Ok (bool_decide (j ∈ ws_processed_indices st)), st).

(** [i += d] *)
Definition advance (d : nat) : M unit :=
  λ st, (Ok tt, WalkState (ws_i st + d) (ws_new_text_list st)
                  (ws_processed_indices st) (ws_draws st) (ws_printed st)).

(** [new_text_list.append(c)] *)
Definition append (c : N) : M unit :=
  λ st, (Ok tt, WalkState (ws_i st) (ws_new_text_list st ++ [c])
                  (ws_processed_indices st) (ws_draws st) (ws_printed st)).

(** [processed_indices.add(j)] *)
Definition add_processed (j : nat) : M unit :=
  λ st, (Ok tt, WalkState (ws_i st) (ws_new_text_list st)
                  ({[j]} ∪ ws_processed_indices st) (ws_draws st) (ws_printed st)).

(** [print(f"Warning: ...")] *)
Definition print_warning (w : warning) : M unit :=
  λ st, (Ok tt, WalkState (ws_i st) (ws_new_text_list st)
                  (ws_processed_indices st) (ws_draws st) (ws_printed st ++ [w])).

Definition choice (seq : pystr) : M N :=
  λ st, match random_choice seq (ws_draws st) with
        | (r, s') => (r, WalkState (ws_i st) (ws_new_text_list st)
                           (ws_processed_indices st) s' (ws_printed st))
        end.

Context (text : pystr) (alphabet : pystr) (modifications : gmap nat Operation).

Definition original_text_len : nat := length text.

(** [text[j]] for a non-negative index *)
Definition getitem (j : nat) : M N :=
  λ st, (match text !! j with Some c => Ok c | None => Raise IndexError end, st).

(** The retry loop of lines 145-147, by the attempts that remain. *)
Fixpoint retry (remaining : nat) (original_char new_char : N) : M N :=
  match remaining with
  | 0 => ret new_char
  | S r =>
      if (new_char =? original_char)%N && (1 <? length alphabet)
      then (let* c := choice alphabet in retry r original_char c)
      else ret new_char
  end.

(** The body of the [try] (lines 135-171). *)
Definition apply_operation (operation : Operation) : M unit :=
  match operation with
  | delete => advance 1
  | substitute =>
      let* i := get_i in
      let* original_char := getitem i in
      let* new_char := choice alphabet in
      let* new_char := retry 5 original_char new_char in
      let* _ := append new_char in
      advance 1
  | insert =>
      let* i := get_i in
      let* random_char := choice alphabet in
      let* _ := append random_char in
      let* c := getitem i in
      let* _ := append c in
      advance 1
  | swap =>
      let* i := get_i in
      if i + 1 <? original_text_len then
        let* c1 := getitem (i + 1) in
        let* _ := append c1 in
        let* c0 := getitem i in
        let* _ := append c0 in
        let* _ := add_processed (i + 1) in
        advance 2
      else
        let* c := getitem i in
        let* _ := append c in
        advance 1
  end.

(** The [except] branch (lines 172-177). *)
Definition on_fault (operation : Operation) : M unit :=
  let* i := get_i in
  let* _ := print_warning (operation, i) in
  let* p := is_processed i in
  let* _ := (if p then ret tt else (let* c := getitem i in append c)) in
  advance 1.

(** One iteration of the [while] loop (lines 122-177). *)
Definition walk_body : M unit :=
  let* i := get_i in
  let* p := is_processed i in
  if p then advance 1
  else
    match modifications !! i with
    | None => let* c := getitem i in let* _ := append c in advance 1
    | Some operation => try_except (apply_operation operation) (on_fault operation)
    end.

(** [while i < original_text_len: ...]; [None] when the iterations
    allowed by [fuel] do not reach the exit. *)
Fixpoint walk (fuel : nat) (st : walk_state) : option (result unit * walk_state) :=
  if ws_i st <? original_text_len then
    match fuel with
    | 0 => None
    | S f =>
        match walk_body st with
        | (Ok _, st') => walk f st'
        | (Raise e, st') => Some (Raise e, st')
        end
    end
  else Some (Ok tt, st).

(** Lines 117-120: the state in which the loop is entered. *)
Definition walk_init (s : nat) : walk_state := WalkState 0 [] ∅ s [].

End Engine.

(** What a call leaves behind: the value returned or the exception
    raised, the draw counter and the lines printed. *)
Record call := Call {
  returned : result pystr;
  draws_after : nat;
  printed : list warning
}.

(** [int(percentage * original_text_len)] *)
Definition num_chars (percentage : Q) (n : nat) : nat :=
  Z.to_nat (Qfloor (percentage * inject_Z (Z.of_nat n))%Q).

(** [add_char_noise], over the two configuration tables; [s] is the number
    of draws made before the call. *)
Definition add_char_noise_in (LEVELS : gmap string Q) (ALPHA : gmap string pystr)
    (o : outcome) (text : pystr) (noise_level language : string) (s : nat) : option call :=
  let original_text_len := length text in
  if original_text_len =? 0 then Some (Call (Ok []) s [])
  else
    let noise_level := lower noise_level in
    match LEVELS !! noise_level with
    | None => Some (Call (Raise ValueError) s [])
    | Some percentage =>
        let language := lower language in
        match ALPHA !! language with
        | None => Some (Call (Raise ValueError) s [])
        | Some [] => Some (Call (Raise ValueError) s [])
        | Some alphabet =>
            let num_chars_to_modify := num_chars percentage original_text_len in
            if num_chars_to_modify =? 0 then Some (Call (Ok text) s [])
            else
              let '(sample, s1) := random_sample o original_text_len num_chars_to_modify s in
              let indices_to_modify := merge_sort Nat.le sample in
              match assign_operations o indices_to_modify ∅ s1 with
              | (Raise e, s2) => Some (Call (Raise e) s2 [])
              | (Ok modifications, s2) =>
                  match walk o text alphabet modifications original_text_len (walk_init s2) with
                  | None => None
                  | Some (Raise e, st) => Some (Call (Raise e) (ws_draws st) (ws_printed st))
                  | Some (Ok _, st) =>
                      Some (Call (Ok (ws_new_text_list st)) (ws_draws st) (ws_printed st))
                  end
              end
        end
    end.

Definition add_char_noise : outcome → pystr → string → string → nat → option call :=
  add_char_noise_in NOISE_LEVEL_PERCENTAGES ALPHABETS.

End CharacterNoiseFunctions.

Module ImageNoiseFunctions.

(** A [numpy.ndarray] of 8-bit unsigned samples (what [cv.imread] yields):
    its shape and its samples in row-major order. *)
Record ndarray := NdArray { shape : list nat; data : list Z }.

Definition ndim (a : ndarray) : nat := length (shape a).

(** [a.size]: the product of the shape. *)
Definition size (a : ndarray) : nat := foldr Nat.mul 1 (shape a).

(** Number of channels as OpenCV reads the array: one for a 2-D array,
    the third extent for a 3-D one. *)
Definition channels (a : ndarray) : nat :=
  match shape a with
  | [_; _; c] => c
  | _ => 1
  end.

(** The part of the world the functions touch: the files that exist (with
    the image they decode to, if any) and the arrays alive in memory.
    Python variables hold references ([nat]) into [heap]. *)
Record world := World {
  files : gmap string (option ndarray);
  heap : gmap nat ndarray
}.

Inductive image_input := Path (p : string) | Array (ref : nat).

(** Allocation of a new array object. *)
Definition alloc (w : world) (a : ndarray) : nat * world :=
  let l := fresh (dom (heap w)) in (l, World (files w) (<[l := a]> (heap w))).

(** [_load_image] (lines 11-30).  A reference to no live array stands for
    an argument that is neither a [str] nor an [ndarray]. *)
Definition _load_image (w : world) (img_input : image_input) : result nat * world :=
  let loaded :=
    match img_input with
    | Path p =>
        match files w !! p with
        | None => (Raise FileNotFoundError, w)
        | Some None => (Raise IOError, w)
        | Some (Some a) => let '(l, w') := alloc w a in (Ok l, w')
        end
    | Array ref =>
        match heap w !! ref with
        | None => (Raise TypeError, w)
        | Some a => let '(l, w') := alloc w a in (Ok l, w')
        end
    end in
  match loaded with
  | (Raise e, w') => (Raise e, w')
  | (Ok l, w') =>
      match heap w' !! l with
      | None => (Raise TypeError, w')
      | Some img =>
          if negb ((ndim img =? 2) || (ndim img =? 3)) then (Raise ValueError, w')
          else if size img =? 0 then (Raise ValueError, w')
          else (Ok l, w')
      end
  end.

(** The [match blur_level] statement (lines 54-62). *)
Definition blur_sigma (blur_level : string) : result Q :=
  if decide (blur_level = "low") then Ok (1 # 1)%Q
  else if decide (blur_level = "medium") then Ok (3 # 1)%Q
  else if decide (blur_level = "high") then Ok (6 # 1)%Q
  else Raise ValueError.

(** The [match occlusion_level] statement (lines 92-100). *)
Definition occlusion_ratio (occlusion_level : string) : result Q :=
  if decide (occlusion_level = "low") then Ok (8 # 100)%Q
  else if decide (occlusion_level = "medium") then Ok (20 # 100)%Q
  else if decide (occlusion_level = "high") then Ok (40 # 100)%Q
  else Raise ValueError.

(** [int(np.sqrt(ratio) * d)]: the integer square root of
    [floor (ratio * d * d)]. *)
Definition int_sqrt_times (ratio : Q) (d : nat) : nat :=
  Z.to_nat (Z.sqrt (Qfloor (ratio * inject_Z (Z.of_nat d * Z.of_nat d))%Q)).

(** [np.random.randint(low, high)] on the raw draw [r]. *)
Definition randint (low high : nat) (r : nat) : nat := low + r mod (high - low).

Record patch := Patch {
  start_y : nat; start_x : nat;
  patch_h : nat; patch_w : nat
}.

Definition end_y (p : patch) : nat := start_y p + patch_h p.
Definition end_x (p : patch) : nat := start_x p + patch_w p.

(** Lines 104-117: the size of the patch and its top-left corner; [ry]
    and [rx] are the two raw draws, in the order the code makes them. *)
Definition occlusion_patch (ratio : Q) (img_height img_width : nat) (ry rx : nat) : patch :=
  let patch_h := int_sqrt_times ratio img_height in
  let patch_w := int_sqrt_times ratio img_width in
  let patch_h := Nat.max 1 patch_h in
  let patch_w := Nat.max 1 patch_w in
  let max_y := Nat.max 0 (img_height - patch_h) in
  let max_x := Nat.max 0 (img_width - patch_w) in
  let start_y := randint 0 (max_y + 1) ry in
  let start_x := randint 0 (max_x + 1) rx in
  Patch start_y start_x patch_h patch_w.

(** ** OpenCV primitives, after their documentation *)

(** The samples of channel [c]. *)
Definition channel_samples (a : ndarray) (c : nat) : list Z :=
  omap (λ kv, if fst kv mod channels a =? c then Some (snd kv) else None)
       (imap (λ k v, (k, v)) (data a)).

(** [cv.mean]: a scalar of four entries, the mean of each channel, zero
    for the channels the image does not have. *)
Definition cv_mean (a : ndarray) : list Q :=
  map (λ c, if c <? channels a
            then (inject_Z (foldr Z.add 0%Z (channel_samples a c))
                  / inject_Z (Z.of_nat (length (channel_samples a c))))%Q
            else 0%Q)
      [0; 1; 2; 3].

(** [cv.mean(img)] as called: OpenCV rejects an image of more than four
    channels with [cv2.error]; otherwise the scalar above. *)
Definition cv_mean_checked (a : ndarray) : result (list Q) :=
  if 4 <? channels a then Raise cv2_error else Ok (cv_mean a).

(** [cvRound]: to the nearest integer, ties to even. *)
Definition cvRound (q : Q) : Z :=
  let f := Qfloor q in
  match (q - inject_Z f ?= 1 # 2)%Q with
  | Lt => f
  | Gt => (f + 1)%Z
  | Eq => if Z.even f then f else (f + 1)%Z
  end.

(** [saturate_cast<uchar>]: the conversion of a colour entry to a sample. *)
Definition saturate_cast (q : Q) : Z := Z.max 0 (Z.min 255 (cvRound q)).

(** Row, column and channel of the [k]-th sample. *)
Definition sample_y (a : ndarray) (k : nat) : nat :=
  k / (nth 1 (shape a) 1 * channels a).
Definition sample_x (a : ndarray) (k : nat) : nat :=
  (k / channels a) mod nth 1 (shape a) 1.
Definition sample_c (a : ndarray) (k : nat) : nat := k mod channels a.

(** The pixels a filled [cv.rectangle] covers: both corners included. *)
Definition covered (x1 y1 x2 y2 : nat) (x y : nat) : bool :=
  (Nat.min x1 x2 <=? x) && (x <=? Nat.max x1 x2) &&
  (Nat.min y1 y2 <=? y) && (y <=? Nat.max y1 y2).

(** [cv.rectangle(img, pt1, pt2, color, thickness=-1)]: every pixel of
    the image between the two corners, corners included, takes the colour;
    what falls outside the image is clipped.  It is only reached with an
    image of at most four channels, the ones a colour has entries for. *)
Definition cv_rectangle (a : ndarray) (x1 y1 x2 y2 : nat) (color : list Q) : ndarray :=
  NdArray (shape a)
    (imap (λ k v,
       if covered x1 y1 x2 y2 (sample_x a k) (sample_y a k)
       then match color !! sample_c a k with
            | Some q => saturate_cast q
            | None => v
            end
       else v) (data a)).

Section Blur.
(** [cv.GaussianBlur(img, ksize=(0, 0), sigmaX, sigmaY)], kept abstract. *)
Context (GaussianBlur : ndarray → Q → Q → ndarray).

(** [apply_gaussian_blur] (lines 34-68) *)
Definition apply_gaussian_blur (w : world) (img_input : image_input)
    (blur_level : string) : result nat * world :=
  match _load_image w img_input with
  | (Raise e, w1) => (Raise e, w1)
  | (Ok img, w1) =>
      match blur_sigma blur_level with
      | Raise e => (Raise e, w1)
      | Ok sigma =>
          match heap w1 !! img with
          | None => (Raise TypeError, w1)
          | Some a =>
              let '(blurred_img, w2) := alloc w1 (GaussianBlur a sigma sigma) in
              (Ok blurred_img, w2)
          end
      end
  end.
End Blur.

(** [apply_occlusion] (lines 70-131); [drawn] is the stream of raw draws of
    numpy's generator and [s] the number of draws made before the call.
    Returns the reference, the world and the draw counter after the call.
    [cv.mean] (line 125) comes after the two draws, so its [cv2.error]
    leaves the counter two further. *)
Definition apply_occlusion (drawn : nat → nat) (w : world) (img_input : image_input)
    (occlusion_level : string) (s : nat) : result nat * world * nat :=
  match _load_image w img_input with
  | (Raise e, w1) => (Raise e, w1, s)
  | (Ok img, w1) =>
      match heap w1 !! img with
      | None => (Raise TypeError, w1, s)
      | Some a =>
          let img_height := nth 0 (shape a) 0 in
          let img_width := nth 1 (shape a) 0 in
          match occlusion_ratio occlusion_level with
          | Raise e => (Raise e, w1, s)
          | Ok ratio =>
              let p := occlusion_patch ratio img_height img_width (drawn s) (drawn (S s)) in
              match cv_mean_checked a with
              | Raise e => (Raise e, w1, S (S s))
              | Ok mean_color =>
                  let a' :=
                    cv_rectangle a (start_x p) (start_y p) (end_x p) (end_y p) mean_color in
                  (Ok img, World (files w1) (<[img := a']> (heap w1)), S (S s))
              end
          end
      end
  end.

End ImageNoiseFunctions.

(** * Vocabulary of the statements about the character noise engine *)

Module CharacterNoiseSpec.
Import CharacterNoiseFunctions.

(** [consumed n plan j]: index [j] is the second half of a pair exchanged
    by a swap carried out at [j - 1]; such a swap is carried out when it
    is planned there, [j - 1] is not itself consumed, and [j] exists. *)
Fixpoint consumed (n : nat) (plan : gmap nat Operation) (j : nat) : bool :=
  match j with
  | 0 => false
  | S j' => bool_decide (plan !! j' = Some swap) && negb (consumed n plan j') && (j <? n)
  end.

(** Number of planned indices below [i]. *)
Definition planned_below (plan : gmap nat Operation) (i : nat) : nat :=
  length (filter (λ j, is_Some (plan !! j)) (seq 0 i)).

(** One iteration of the loop, as a relation between states. *)
Inductive step (text alphabet : pystr) (plan : gmap nat Operation) (st : walk_state) :
    walk_state → Prop :=
| step_keep c :
    plan !! ws_i st = None → text !! ws_i st = Some c →
    step text alphabet plan st (WalkState (ws_i st + 1) (ws_new_text_list st ++ [c])
               (ws_processed_indices st) (ws_draws st) (ws_printed st))
| step_delete :
    plan !! ws_i st = Some delete →
    step text alphabet plan st (WalkState (ws_i st + 1) (ws_new_text_list st)
               (ws_processed_indices st) (ws_draws st) (ws_printed st))
| step_substitute c d :
    plan !! ws_i st = Some substitute → c ∈ alphabet → 1 ≤ d ≤ 6 →
    step text alphabet plan st (WalkState (ws_i st + 1) (ws_new_text_list st ++ [c])
               (ws_processed_indices st) (ws_draws st + d) (ws_printed st))
| step_insert c x :
    plan !! ws_i st = Some insert → c ∈ alphabet → text !! ws_i st = Some x →
    step text alphabet plan st (WalkState (ws_i st + 1) ((ws_new_text_list st ++ [c]) ++ [x])
               (ws_processed_indices st) (S (ws_draws st)) (ws_printed st))
| step_swap x y :
    plan !! ws_i st = Some swap → ws_i st + 1 < length text →
    text !! ws_i st = Some x → text !! (ws_i st + 1) = Some y →
    step text alphabet plan st (WalkState (ws_i st + 2) ((ws_new_text_list st ++ [y]) ++ [x])
               ({[ws_i st + 1]} ∪ ws_processed_indices st) (ws_draws st) (ws_printed st))
| step_swap_last x :
    plan !! ws_i st = Some swap → ¬ ws_i st + 1 < length text → text !! ws_i st = Some x →
    step text alphabet plan st (WalkState (ws_i st + 1) (ws_new_text_list st ++ [x])
               (ws_processed_indices st) (ws_draws st) (ws_printed st)).

(** Indices marked as processed lie behind the loop index, so the
    skipping branch of line 122 is never taken. *)
Definition behind (text : pystr) (st : walk_state) : Prop :=
  ws_i st ≤ length text ∧ ∀ j, j ∈ ws_processed_indices st → j < ws_i st.

(** No warning has been printed. *)
Definition quiet (st : walk_state) : Prop := ws_printed st = [].

(** The output and the loop index drift apart by at most the number of
    planned indices already passed. *)
Definition length_inv (plan : gmap nat Operation) (st : walk_state) : Prop :=
  ws_i st ≤ length (ws_new_text_list st) + planned_below plan (ws_i st) ∧
  length (ws_new_text_list st) ≤ ws_i st + planned_below plan (ws_i st).

(** Every character emitted comes from the text or from the alphabet. *)
Definition sources_inv (text alphabet : pystr) (st : walk_state) : Prop :=
  Forall (λ c, c ∈ text ∨ c ∈ alphabet) (ws_new_text_list st).

(** The loop never stands on a consumed index. *)
Definition unconsumed (text : pystr) (plan : gmap nat Operation) (st : walk_state) : Prop :=
  consumed (length text) plan (ws_i st) = false.

(** Once the pair at [i], [i + 1] has been exchanged, it stays in the
    output and [i + 1] stays marked. *)
Definition swapped_inv (i : nat) (x y : N) (st : walk_state) : Prop :=
  ws_i st ≤ i ∨
  (∃ pre post, ws_new_text_list st = pre ++ [y; x] ++ post) ∧
  i + 1 ∈ ws_processed_indices st.

(** When the plan has a swap at the last index, the output ends with
    the last character, or with the last character followed by its left
    neighbour when a swap at the index before consumed the last one. *)
Definition final_swap_inv (text : pystr) (plan : gmap nat Operation) (c : N)
    (st : walk_state) : Prop :=
  ws_i st = length text →
  (consumed (length text) plan (length text - 1) = false ∧ ∃ pre, ws_new_text_list st = pre ++ [c]) ∨
  (consumed (length text) plan (length text - 1) = true ∧
     ∃ pre z, text !! (length text - 2) = Some z ∧ ws_new_text_list st = pre ++ [c; z]).

(** ** Inputs on which the statements are exercised *)

(** A sample outcome used to exercise the theorems: indices 0 and 1 are
    targeted and every raw draw is 3 (so every operation is a swap). *)
Definition two_swaps : outcome := Outcome [0; 1] (λ _, 3).

(** "abcdefgh" *)
Definition abcdefgh : pystr := [97; 98; 99; 100; 101; 102; 103; 104]%N.

(** A swap planned at both 0 and 1: the plan that [two_swaps] produces. *)
Definition swap_swap : gmap nat Operation := <[1 := swap]> (<[0 := swap]> ∅).

(** "bacdefgh" *)
Definition bacdefgh : pystr := [98; 97; 99; 100; 101; 102; 103; 104]%N.

(** "abc" *)
Definition abc : pystr := [97; 98; 99]%N.


(** "abcde" *)
Definition abcde : pystr := [97; 98; 99; 100; 101]%N.

(** ** Further vocabulary *)

(** Number of indices below [i] at which [op] is planned and carried out,
    that is, whose index is not consumed by a swap. *)
Definition carried_out (n : nat) (plan : gmap nat Operation) (op : Operation) (i : nat) : nat :=
  length (filter (λ j, plan !! j = Some op ∧ consumed n plan j = false) (seq 0 i)).

(** The states in which the loop condition is evaluated, in order, for at
    most [fuel] iterations. *)
Fixpoint walk_trace (o : outcome) (text alphabet : pystr) (plan : gmap nat Operation)
    (fuel : nat) (st : walk_state) : list walk_state :=
  st :: match fuel with
        | 0 => []
        | S f =>
            if ws_i st <? length text then
              match walk_body o text alphabet plan st with
              | (Ok _, st') => walk_trace o text alphabet plan f st'
              | (Raise _, _) => []
              end
            else []
        end.

(** The names registered in the two tables. *)
Definition tier_names : list string := ["low"; "medium"; "high"].
Definition language_names : list string := ["english"; "hindi"; "igbo"].

(** A plan of one substitution at index 0 and an outcome whose draws all
    pick the first symbol of the alphabet. *)
Definition substitute_first : gmap nat Operation := <[0 := substitute]> ∅.
Definition always_zero : outcome := Outcome [0] (λ _, 0).

End CharacterNoiseSpec.

(** * Inputs on which the statements about the image engine are exercised *)

Module ImageNoiseSpec.
Import ImageNoiseFunctions.

(** A 3 x 3 grey image, zero but for a 9 in the last corner (mean 1), and
    a world in which it is the only array. *)
Definition corner9 : ndarray := NdArray [3; 3] [0; 0; 0; 0; 0; 0; 0; 0; 9]%Z.
Definition corner9_world : world := World ∅ (<[0 := corner9]> ∅).

(** The array an input stands for: the image a path decodes to, or the
    array a reference points to. *)
Definition held_by (w : world) (img_input : image_input) (a : ndarray) : Prop :=
  match img_input with
  | Path p => files w !! p = Some (Some a)
  | Array ref => heap w !! ref = Some a
  end.

(** The array is one [_load_image] accepts. *)
Definition loadable (a : ndarray) : Prop := (ndim a = 2 ∨ ndim a = 3) ∧ size a ≠ 0.

#[global] Instance loadable_dec (a : ndarray) : Decision (loadable a).
Proof. unfold loadable. apply _. Defined.


(** A 2 x 2 image of three channels in which every sample is 5. *)
Definition flat5 : ndarray := NdArray [2; 2; 3] (replicate 12 5%Z).
Definition flat5_world : world := World ∅ (<[0 := flat5]> ∅).



(** A world with one decodable file, one file that is not an image, and
    the array [corner9] in memory. *)
Definition disk_world : world :=
  World (<["cat.png" := Some corner9]> (<["notes.txt" := None]> ∅)) (<[0 := corner9]> ∅).

End ImageNoiseSpec.

(** * Properties of the character noise engine *)

Module CharacterNoiseProps.
Import CharacterNoiseFunctions CharacterNoiseSpec.

Section Walk.
Context (o : outcome) (text alphabet : pystr) (plan : gmap nat Operation).

Abbreviation n := (length text).
Abbreviation body := (walk_body o text alphabet plan).

Lemma choice_ok (st : walk_state) :
  alphabet ≠ [] →
  ∃ c, c ∈ alphabet ∧
    choice o alphabet st =
      (Ok c, WalkState (ws_i st) (ws_new_text_list st) (ws_processed_indices st)
               (S (ws_draws st)) (ws_printed st)).
Proof.
  intros Hne. unfold choice, random_choice.
  assert (Hlt : drawn o (ws_draws st) mod length alphabet < length alphabet).
  { apply Nat.mod_upper_bound. destruct alphabet; [done | simpl; lia]. }
  destruct (lookup_lt_is_Some_2 _ _ Hlt) as [c Hc].
  exists c. rewrite Hc. split; [| done].
  eapply list_elem_of_lookup_2; eauto.
Qed.

Lemma retry_ok (r : nat) (orig c : N) (st : walk_state) :
  alphabet ≠ [] → c ∈ alphabet →
  ∃ c' d, c' ∈ alphabet ∧ d ≤ r ∧
    retry o alphabet r orig c st =
      (Ok c', WalkState (ws_i st) (ws_new_text_list st) (ws_processed_indices st)
                (ws_draws st + d) (ws_printed st)).
Proof.
  intros Hne. revert c st. induction r as [| r IH]; intros c st Hc; simpl.
  - exists c, 0. rewrite Nat.add_0_r. destruct st; split; [done | split; [simpl; lia | done]].
  - destruct ((c =? orig)%N && (1 <? length alphabet)).
    + unfold bind. destruct (choice_ok st Hne) as (c1 & Hc1 & ->).
      destruct (IH c1 (WalkState (ws_i st) (ws_new_text_list st)
                         (ws_processed_indices st) (S (ws_draws st)) (ws_printed st)) Hc1)
        as (c' & d & Hc' & Hd & ->).
      exists c', (S d). simpl. split; [done | split; [lia |]].
      do 2 f_equal. lia.
    + exists c, 0. rewrite Nat.add_0_r. destruct st; split; [done | split; [simpl; lia | done]].
Qed.

(** The loop body never faults once [i] is a valid, unprocessed index:
    it is one of the six steps. *)
Lemma walk_body_step (st : walk_state) :
  alphabet ≠ [] → ws_i st < n → ws_i st ∉ ws_processed_indices st →
  ∃ st', body st = (Ok tt, st') ∧ step text alphabet plan st st'.
Proof.
  intros Hne Hi Hnp.
  destruct (lookup_lt_is_Some_2 _ _ Hi) as [x Hx].
  unfold walk_body, bind, get_i, is_processed.
  rewrite bool_decide_eq_false_2 by done.
  destruct (plan !! ws_i st) as [op |] eqn:Hop.
  - unfold try_except.
    destruct op; unfold apply_operation, bind, get_i, getitem, original_text_len.
    + (* substitute *)
      rewrite Hx.
      destruct (choice_ok st Hne) as (c1 & Hc1 & ->).
      destruct (retry_ok 5 x c1 (WalkState (ws_i st) (ws_new_text_list st)
                  (ws_processed_indices st) (S (ws_draws st)) (ws_printed st)) Hne Hc1)
        as (c' & d & Hc' & Hd & ->). cbn.
      eexists. split; [reflexivity |].
      replace (S (ws_draws st + d)) with (ws_draws st + S d) by lia.
      apply step_substitute; [done | done | lia].
    + eexists. split; [reflexivity |]. by apply step_delete.
    + (* insert *)
      destruct (choice_ok st Hne) as (c1 & Hc1 & ->). cbn. rewrite Hx. cbn.
      eexists. split; [reflexivity |]. by apply step_insert.
    + (* swap *)
      destruct (ws_i st + 1 <? n) eqn:Hlt.
      * apply Nat.ltb_lt in Hlt.
        destruct (lookup_lt_is_Some_2 _ _ Hlt) as [y Hy].
        rewrite Hy. cbn. rewrite Hx. cbn.
        eexists. split; [reflexivity |]. by apply step_swap.
      * rewrite Hx. cbn.
        apply Nat.ltb_ge in Hlt.
        eexists. split; [reflexivity |]. apply step_swap_last; [done | lia | done].
  - unfold bind, getitem. rewrite Hx. cbn. unfold advance. cbn.
    eexists. split; [reflexivity |]. by apply step_keep.
Qed.

Lemma step_behind st st' : ws_i st < n → behind text st → step text alphabet plan st st' → behind text st'.
Proof.
  intros Hi [Hle Hb] Hs. inversion Hs; subst; split; simpl; try lia;
    intros j Hj; try (specialize (Hb j Hj); lia).
  apply elem_of_union in Hj as [Hj | Hj].
  - apply elem_of_singleton in Hj. lia.
  - specialize (Hb j Hj). lia.
Qed.

Lemma step_advances st st' : step text alphabet plan st st' → ws_i st < ws_i st'.
Proof. intros Hs. inversion Hs; subst; simpl; lia. Qed.

(** The loop runs to its exit without a fault, and every property kept
    by the six steps holds of the state it ends in. *)
Lemma walk_invariant (P : walk_state → Prop) :
  alphabet ≠ [] →
  (∀ st st', ws_i st < n → behind text st → P st → step text alphabet plan st st' → P st') →
  ∀ fuel st, n - ws_i st ≤ fuel → behind text st → P st →
    ∃ st', walk o text alphabet plan fuel st = Some (Ok tt, st')
           ∧ ws_i st' = n ∧ behind text st' ∧ P st'.
Proof.
  intros Hne Hkeep fuel. induction fuel as [| fuel IH]; intros st Hfuel Hb HP; simpl.
  - unfold original_text_len. destruct (ws_i st <? n) eqn:Hlt.
    + apply Nat.ltb_lt in Hlt. lia.
    + apply Nat.ltb_ge in Hlt. exists st. destruct Hb as [Hle Hb].
      repeat split; auto; lia.
  - unfold original_text_len. destruct (ws_i st <? n) eqn:Hlt.
    + apply Nat.ltb_lt in Hlt.
      destruct (walk_body_step st Hne Hlt) as (st' & -> & Hs).
      { intros Hin. destruct Hb as [_ Hb]. specialize (Hb _ Hin). lia. }
      apply IH.
      * apply step_advances in Hs. lia.
      * by eapply step_behind.
      * by eapply Hkeep.
    + apply Nat.ltb_ge in Hlt. exists st. destruct Hb as [Hle Hb'].
      repeat split; auto; lia.
Qed.

Lemma behind_init s : behind text (walk_init s).
Proof. split; simpl; [lia |]. intros j Hj. set_solver. Qed.

End Walk.

(** ** Building the modification plan *)

Lemma random_choice_operations (o : outcome) (s : nat) :
  ∃ op, random_choice o operations s = (Ok op, S s).
Proof.
  unfold random_choice.
  assert (Hlt : drawn o s mod length operations < length operations)
    by (apply Nat.mod_upper_bound; simpl; lia).
  destruct (lookup_lt_is_Some_2 _ _ Hlt) as [op Hop].
  exists op. by rewrite Hop.
Qed.

Lemma assign_operations_ok (o : outcome) (indices : list nat) :
  ∀ (m : gmap nat Operation) (s : nat),
    ∃ m', assign_operations o indices m s = (Ok m', s + length indices)
          ∧ size m' ≤ size m + length indices.
Proof.
  induction indices as [| idx rest IH]; intros m s; simpl.
  - exists m. rewrite !Nat.add_0_r. done.
  - destruct (random_choice_operations o s) as [op ->].
    destruct (IH (<[idx := op]> m) (S s)) as (m' & -> & Hsize).
    exists m'. split; [f_equal; lia |].
    pose proof (map_size_insert idx op m) as Hins.
    destruct (m !! idx); simpl in Hins; lia.
Qed.

Lemma planned_below_S (plan : gmap nat Operation) (i : nat) :
  planned_below plan (S i) =
  planned_below plan i + (match plan !! i with Some _ => 1 | None => 0 end).
Proof.
  unfold planned_below. rewrite seq_S, filter_app, length_app. simpl.
  f_equal. rewrite filter_cons, filter_nil.
  destruct (plan !! i) as [op |] eqn:Hop.
  - rewrite decide_True by eauto. done.
  - rewrite decide_False; [done |]. by intros [? ?].
Qed.

Lemma planned_below_mono (plan : gmap nat Operation) (i j : nat) :
  i ≤ j → planned_below plan i ≤ planned_below plan j.
Proof.
  induction 1 as [| j Hle IH]; [done |].
  rewrite planned_below_S. lia.
Qed.

Lemma planned_below_size (plan : gmap nat Operation) (i : nat) :
  planned_below plan i ≤ size plan.
Proof.
  unfold planned_below.
  assert (Hsub : filter (λ j, is_Some (plan !! j)) (seq 0 i) ⊆+ (map_to_list plan).*1).
  { apply NoDup_submseteq.
    - apply NoDup_filter, NoDup_seq.
    - intros x [[v Hv] _]%list_elem_of_filter.
      apply list_elem_of_fmap. exists (x, v). split; [done |].
      by apply elem_of_map_to_list. }
  apply submseteq_length in Hsub. rewrite length_fmap in Hsub.
  by rewrite length_map_to_list in Hsub.
Qed.

(** ** From the public function to the loop *)

(** Past the early returns, a call is the loop run on the plan that the
    draws produce; the plan has at most as many keys as indices sampled. *)
Lemma add_char_noise_in_walk (LEVELS : gmap string Q) (ALPHA : gmap string pystr)
    (o : outcome) (text : pystr) (noise_level language : string) (s : nat)
    (percentage : Q) (alphabet : pystr) :
  text ≠ [] →
  LEVELS !! lower noise_level = Some percentage →
  ALPHA !! lower language = Some alphabet →
  alphabet ≠ [] →
  num_chars percentage (length text) ≠ 0 →
  ∃ plan s2,
    size plan ≤ length (sampled o) ∧
    add_char_noise_in LEVELS ALPHA o text noise_level language s =
      match walk o text alphabet plan (length text) (walk_init s2) with
      | None => None
      | Some (Raise e, st) => Some (Call (Raise e) (ws_draws st) (ws_printed st))
      | Some (Ok _, st) => Some (Call (Ok (ws_new_text_list st)) (ws_draws st) (ws_printed st))
      end.
Proof.
  intros Htext Hlevel Hlang Hne Hk.
  destruct (assign_operations_ok o (merge_sort Nat.le (sampled o)) ∅ (S s))
    as (plan & Hplan & Hsize).
  exists plan, (S s + length (merge_sort Nat.le (sampled o))). split.
  - rewrite map_size_empty in Hsize.
    by rewrite (Permutation_length (merge_sort_Permutation Nat.le (sampled o))) in Hsize.
  - unfold add_char_noise_in. rewrite Hlevel, Hlang.
    destruct text as [| c0 text']; [done |].
    destruct alphabet as [| a0 alphabet']; [done |].
    change (length (c0 :: text') =? 0) with false. cbv iota.
    rewrite (proj2 (Nat.eqb_neq _ _) Hk).
    unfold random_sample. by rewrite Hplan.
Qed.

(** ** Loop invariants *)

Section Invariants.
Context (o : outcome) (text alphabet : pystr) (plan : gmap nat Operation).

Lemma step_quiet st st' : quiet st → step text alphabet plan st st' → quiet st'.
Proof. unfold quiet. intros Hq Hs. by inversion Hs; subst. Qed.

Lemma step_length_inv st st' :
  length_inv plan st → step text alphabet plan st st' → length_inv plan st'.
Proof.
  unfold length_inv. intros [H1 H2] Hs.
  inversion Hs as [c Hp Ht | Hp | c d Hp Hc Hd | c x Hp Hc Ht
                  | x y Hp Hlt Hx Hy | x Hp Hlt Hx]; subst; simpl;
    rewrite ?length_app; simpl;
    try (replace (ws_i st + 1) with (S (ws_i st)) by lia;
         rewrite planned_below_S, Hp; lia).
  pose proof (planned_below_mono plan (ws_i st) (ws_i st + 2)). lia.
Qed.

Lemma step_sources_inv st st' :
  sources_inv text alphabet st → step text alphabet plan st st' → sources_inv text alphabet st'.
Proof.
  unfold sources_inv. intros Hf Hs.
  inversion Hs; subst; simpl; rewrite ?Forall_app, ?Forall_singleton;
    repeat split; auto;
    try (left; eapply list_elem_of_lookup_2; eassumption).
Qed.

End Invariants.

(** ** Which indices the loop visits *)

Section Visits.
Context (o : outcome) (text alphabet : pystr) (plan : gmap nat Operation).

Abbreviation n := (length text).

Lemma consumed_after_swap (i : nat) :
  plan !! i = Some swap → consumed n plan i = false → i + 1 < n →
  consumed n plan (i + 1) = true.
Proof.
  intros Hp Hc Hlt. replace (i + 1) with (S i) by lia. simpl.
  rewrite bool_decide_eq_true_2 by done. rewrite Hc. simpl.
  apply Nat.ltb_lt. lia.
Qed.

Lemma step_unconsumed st st' :
  unconsumed text plan st → step text alphabet plan st st' → unconsumed text plan st'.
Proof.
  unfold unconsumed. intros Hu Hs.
  inversion Hs as [c Hp Ht | Hp | c d Hp Hc Hd | c x Hp Hc Ht
                  | x y Hp Hlt Hx Hy | x Hp Hlt Hx]; subst; simpl;
    try (replace (ws_i st + 1) with (S (ws_i st)) by lia; simpl;
         rewrite bool_decide_eq_false_2 by (rewrite Hp; congruence); done).
  - replace (ws_i st + 2) with (S (ws_i st + 1)) by lia.
    cbn [consumed]. rewrite (consumed_after_swap _ Hp Hu Hlt).
    by rewrite andb_false_r.
  - replace (ws_i st + 1) with (S (ws_i st)) by lia. cbn [consumed].
    rewrite (proj2 (Nat.ltb_ge _ _)) by lia. by rewrite andb_false_r.
Qed.

(** The loop body consults the plan at the current index only. *)
Lemma walk_body_plan_local (plan' : gmap nat Operation) (st : walk_state) :
  plan' !! ws_i st = plan !! ws_i st →
  walk_body o text alphabet plan' st = walk_body o text alphabet plan st.
Proof.
  intros Heq. unfold walk_body, bind, get_i, is_processed. by rewrite Heq.
Qed.

(** Changing the plan at an index the loop never visits changes nothing. *)
Lemma walk_plan_irrelevant (plan' : gmap nat Operation) (j : nat) :
  alphabet ≠ [] →
  consumed n plan j = true →
  (∀ k, k ≠ j → plan' !! k = plan !! k) →
  ∀ fuel st, behind text st → unconsumed text plan st →
    walk o text alphabet plan' fuel st = walk o text alphabet plan fuel st.
Proof.
  intros Hne Hj Hagree fuel.
  induction fuel as [| fuel IH]; intros st Hb Hu; [done |].
  simpl. unfold original_text_len. destruct (ws_i st <? n) eqn:Hlt; [| done].
  apply Nat.ltb_lt in Hlt.
  rewrite walk_body_plan_local.
  2:{ apply Hagree. intros Heq. unfold unconsumed in Hu. rewrite Heq in Hu. congruence. }
  destruct (walk_body_step o text alphabet plan st Hne Hlt) as (st' & -> & Hs).
  { intros Hin. destruct Hb as [_ Hb]. specialize (Hb _ Hin). lia. }
  apply IH.
  - by eapply step_behind.
  - by eapply step_unconsumed.
Qed.

(** The output only grows, and so does the set of processed indices. *)
Lemma step_grows st st' :
  step text alphabet plan st st' →
  (∃ more, ws_new_text_list st' = ws_new_text_list st ++ more) ∧
  ws_processed_indices st ⊆ ws_processed_indices st'.
Proof.
  intros Hs. destruct Hs; simpl; (split; [| apply union_subseteq_r || done]);
    rewrite <- ?app_assoc; eauto.
  exists []. by rewrite app_nil_r.
Qed.

Lemma step_swapped_inv (i : nat) (x y : N) st st' :
  plan !! i = Some swap → text !! i = Some x → text !! (i + 1) = Some y →
  consumed n plan i = false →
  unconsumed text plan st → swapped_inv i x y st →
  step text alphabet plan st st' → swapped_inv i x y st'.
Proof.
  intros Hp Hx Hy Hc Hu [Hle | [(pre & post & Hout) Hin]] Hs.
  - destruct (decide (ws_i st = i)) as [Heq | Hne].
    + subst i. right.
      assert (Hlt : ws_i st + 1 < n) by (by eapply lookup_lt_Some).
      inversion Hs; subst; simpl; try congruence; try lia.
      split; [| set_solver].
      exists (ws_new_text_list st), [].
      rewrite <- app_assoc. simpl. congruence.
    + destruct (decide (ws_i st' ≤ i)) as [Hle' | Hgt]; [by left |].
      exfalso.
      assert (Hi' : ws_i st = i - 1 ∧ ws_i st' = i + 1 ∧ plan !! (i - 1) = Some swap
                    ∧ i < n).
      { inversion Hs; subst; simpl in *; try lia.
        repeat split; try lia. replace (i - 1) with (ws_i st) by lia. done. }
      destruct Hi' as (Hi1 & _ & Hp1 & Hlt).
      unfold unconsumed in Hu. rewrite Hi1 in Hu.
      assert (Hcons : consumed n plan i = true).
      { replace i with (S (i - 1)) at 1 by lia. cbn [consumed].
        rewrite bool_decide_eq_true_2 by done. rewrite Hu. simpl.
        apply Nat.ltb_lt. lia. }
      congruence.
  - right. destruct (step_grows st st' Hs) as [[more Hmore] Hsub]. split.
    + exists pre, (post ++ more). rewrite Hmore, Hout.
      by rewrite <- !app_assoc.
    + set_solver.
Qed.

Lemma step_final_swap_inv (c : N) st st' :
  plan !! (n - 1) = Some swap → text !! (n - 1) = Some c →
  ws_i st < n → unconsumed text plan st →
  step text alphabet plan st st' → final_swap_inv text plan c st'.
Proof.
  intros Hp Hc Hlt Hu Hs Hend. unfold unconsumed in Hu.
  inversion Hs as [c' Hp' Ht | Hp' | c' d Hp' Hc' Hd | c' x Hp' Hc' Ht
                  | x y Hp' Hlt' Hx Hy | x Hp' Hlt' Hx]; subst; simpl in *;
    try (replace (ws_i st) with (n - 1) in * by lia; congruence).
  - right. replace (ws_i st + 1) with (n - 1) in * by lia.
    replace (ws_i st) with (n - 2) in * by lia.
    split.
    + replace (n - 1) with (S (n - 2)) by lia. cbn [consumed].
      rewrite bool_decide_eq_true_2 by done. rewrite Hu. simpl.
      apply Nat.ltb_lt. lia.
    + exists (ws_new_text_list st), x. split; [done |].
      rewrite <- app_assoc. simpl. congruence.
  - left. replace (ws_i st) with (n - 1) in * by lia.
    split; [done |]. exists (ws_new_text_list st). congruence.
Qed.

End Visits.

(** ** The public function *)

(** C1. For every text, recognised tier, registered language with a
    non-empty alphabet and every outcome of the draws, the call returns a
    string (no exception, no warning) whose length lies within
    [k = floor(fraction * length text)] of the length of the input. *)
Theorem add_char_noise_length_bound (o : outcome) (text : pystr)
    (noise_level language : string) (s : nat) (percentage : Q) (alphabet : pystr) :
  NOISE_LEVEL_PERCENTAGES !! lower noise_level = Some percentage →
  ALPHABETS !! lower language = Some alphabet →
  alphabet ≠ [] →
  is_sample (length text) (num_chars percentage (length text)) (sampled o) →
  ∃ noisy s',
    add_char_noise o text noise_level language s = Some (Call (Ok noisy) s' []) ∧
    length text - num_chars percentage (length text) ≤ length noisy ∧
    length noisy ≤ length text + num_chars percentage (length text).
Proof.
  intros Hlevel Hlang Hne (Hlen & _ & _).
  destruct text as [| c0 text'] eqn:Htext.
  { exists [], s. split; [done | simpl; lia]. }
  rewrite <- Htext in *. assert (Hnil : text ≠ []) by (by rewrite Htext).
  destruct (decide (num_chars percentage (length text) = 0)) as [Hk | Hk].
  { exists text, s. split; [| lia].
    unfold add_char_noise, add_char_noise_in. rewrite Hlevel, Hlang, Hk.
    rewrite Htext at 1. destruct alphabet; done. }
  destruct (add_char_noise_in_walk NOISE_LEVEL_PERCENTAGES ALPHABETS o text
              noise_level language s percentage alphabet Hnil Hlevel Hlang Hne Hk)
    as (plan & s2 & Hsize & Hrun).
  destruct (walk_invariant o text alphabet plan
              (λ st, quiet st ∧ length_inv plan st) Hne) with
      (fuel := length text) (st := walk_init s2)
    as (st' & Hwalk & Hi & _ & Hq & Hl1 & Hl2).
  - intros st st' _ _ [Hq Hl] Hs. split.
    + by eapply step_quiet.
    + by eapply step_length_inv.
  - simpl. lia.
  - apply behind_init.
  - split; [done |]. split; simpl; lia.
  - exists (ws_new_text_list st'), (ws_draws st').
    unfold add_char_noise. rewrite Hrun, Hwalk, Hq. split; [done |].
    rewrite Hi in Hl1, Hl2.
    pose proof (planned_below_size plan (length text)). lia.
Qed.

Lemma add_char_noise_length_bound_witness :
  ∃ noisy s',
    add_char_noise two_swaps abcdefgh "High" "English" 0 = Some (Call (Ok noisy) s' []) ∧
    length abcdefgh - num_chars (25 # 100) (length abcdefgh) ≤ length noisy ∧
    length noisy ≤ length abcdefgh + num_chars (25 # 100) (length abcdefgh).
Proof.
  apply (add_char_noise_length_bound two_swaps abcdefgh "High" "English" 0 (25 # 100)
           english_alphabet).
  - vm_compute. reflexivity.
  - vm_compute. reflexivity.
  - vm_compute. discriminate.
  - apply (bool_decide_unpack _). vm_compute. exact I.
Defined.

(** C10. For every valid input and every outcome of the draws, each
    character of the returned string occurs in the input text or belongs
    to the alphabet of the selected language. *)
Theorem add_char_noise_character_sources (o : outcome) (text : pystr)
    (noise_level language : string) (s : nat) (percentage : Q) (alphabet : pystr) :
  NOISE_LEVEL_PERCENTAGES !! lower noise_level = Some percentage →
  ALPHABETS !! lower language = Some alphabet →
  alphabet ≠ [] →
  ∃ noisy s',
    add_char_noise o text noise_level language s = Some (Call (Ok noisy) s' []) ∧
    ∀ c, c ∈ noisy → c ∈ text ∨ c ∈ alphabet.
Proof.
  intros Hlevel Hlang Hne.
  destruct text as [| c0 text'] eqn:Htext.
  { exists [], s. split; [done |]. intros c Hc. by apply elem_of_nil in Hc. }
  rewrite <- Htext in *. assert (Hnil : text ≠ []) by (by rewrite Htext).
  destruct (decide (num_chars percentage (length text) = 0)) as [Hk | Hk].
  { exists text, s. split; [| by left].
    unfold add_char_noise, add_char_noise_in. rewrite Hlevel, Hlang, Hk.
    rewrite Htext at 1. destruct alphabet; done. }
  destruct (add_char_noise_in_walk NOISE_LEVEL_PERCENTAGES ALPHABETS o text
              noise_level language s percentage alphabet Hnil Hlevel Hlang Hne Hk)
    as (plan & s2 & _ & Hrun).
  destruct (walk_invariant o text alphabet plan
              (λ st, quiet st ∧ sources_inv text alphabet st) Hne) with
      (fuel := length text) (st := walk_init s2)
    as (st' & Hwalk & _ & _ & Hq & Hsrc).
  - intros st st' _ _ [Hq Hl] Hs. split.
    + by eapply step_quiet.
    + by eapply step_sources_inv.
  - simpl. lia.
  - apply behind_init.
  - split; [done |]. apply Forall_nil_2.
  - exists (ws_new_text_list st'), (ws_draws st').
    unfold add_char_noise. rewrite Hrun, Hwalk, Hq. split; [done |].
    intros c Hc. unfold sources_inv in Hsrc.
    rewrite Forall_forall in Hsrc. by apply Hsrc.
Qed.

Lemma add_char_noise_character_sources_witness :
  ∃ noisy s',
    add_char_noise (Outcome [7; 2] (λ k, k)) abcdefgh "hIgh" "Hindi" 0
      = Some (Call (Ok noisy) s' []) ∧
    ∀ c, c ∈ noisy → c ∈ abcdefgh ∨ c ∈ hindi_alphabet.
Proof.
  apply (add_char_noise_character_sources (Outcome [7; 2] (λ k, k)) abcdefgh
           "hIgh" "Hindi" 0 (25 # 100) hindi_alphabet).
  - vm_compute. reflexivity.
  - vm_compute. reflexivity.
  - vm_compute. discriminate.
Defined.

(** C2, as stated, fails.  On "abcdefgh" at tier high, with indices 0 and 1
    sampled and a swap drawn for both, the swap planned at index 1 (index 2
    is in range) is never carried out, because the swap at index 0 has
    consumed index 1.  The call returns "bacdefgh": 'c' followed by 'b' is
    not emitted and index 2 is not marked. *)
Lemma planned_swap_not_always_applied :
  assign_operations two_swaps (merge_sort Nat.le (sampled two_swaps)) ∅ 1
    = (Ok swap_swap, 3) ∧
  swap_swap !! 1 = Some swap ∧ 1 + 1 < length abcdefgh ∧
  add_char_noise two_swaps abcdefgh "high" "english" 0 = Some (Call (Ok bacdefgh) 3 []) ∧
  ∃ st, walk two_swaps abcdefgh english_alphabet swap_swap (length abcdefgh) (walk_init 3)
          = Some (Ok tt, st) ∧
        ws_new_text_list st = bacdefgh ∧
        (2 ∉ ws_processed_indices st) ∧
        ¬ (∃ pre post, ws_new_text_list st = pre ++ [99%N; 98%N] ++ post).
Proof.
  split; [vm_compute; reflexivity |].
  split; [vm_compute; reflexivity |]. split; [simpl; lia |].
  split; [vm_compute; reflexivity |].
  exists (WalkState 8 bacdefgh {[1]} 3 []).
  split; [vm_compute; reflexivity |]. cbn [ws_new_text_list ws_processed_indices].
  split; [done |]. split.
  - intros Hin. apply elem_of_singleton in Hin. lia.
  - intros (pre & post & Heq). unfold bacdefgh in Heq.
    do 8 (destruct pre as [| ? pre]; simpl in Heq; [congruence |]).
    destruct pre; simpl in Heq; congruence.
Qed.

(** C2, amended.  When a swap is planned at [i], [i + 1] is in range and
    [i] is not itself consumed by a swap carried out at [i - 1]: the loop
    body at [i] emits the character at [i + 1], then the one at [i], marks
    [i + 1] and moves to [i + 2]; the walk ends with that pair in its output
    and [i + 1] marked; and whatever is planned at [i + 1] has no influence
    on the run. *)
Theorem swap_exchanges_pair (o : outcome) (text alphabet : pystr)
    (plan : gmap nat Operation) (s i : nat) (x y : N) :
  alphabet ≠ [] →
  plan !! i = Some swap →
  text !! i = Some x → text !! (i + 1) = Some y →
  consumed (length text) plan i = false →
  (∀ st, ws_i st = i → i ∉ ws_processed_indices st →
     walk_body o text alphabet plan st =
       (Ok tt, WalkState (i + 2) ((ws_new_text_list st ++ [y]) ++ [x])
                 ({[i + 1]} ∪ ws_processed_indices st) (ws_draws st) (ws_printed st))) ∧
  ∃ st',
    walk o text alphabet plan (length text) (walk_init s) = Some (Ok tt, st') ∧
    (∃ pre post, ws_new_text_list st' = pre ++ [y; x] ++ post) ∧
    i + 1 ∈ ws_processed_indices st' ∧
    ∀ other : option Operation,
      walk o text alphabet (partial_alter (λ _, other) (i + 1) plan)
        (length text) (walk_init s) = Some (Ok tt, st').
Proof.
  intros Hne Hp Hx Hy Hc.
  assert (Hlt : i + 1 < length text) by (by eapply lookup_lt_Some).
  split.
  { intros st Hi Hnp. subst i.
    destruct (walk_body_step o text alphabet plan st Hne) as (st' & -> & Hs);
      [lia | done |].
    inversion Hs; subst; try congruence; try lia.
    all: repeat f_equal; congruence. }
  destruct (walk_invariant o text alphabet plan
              (λ st, unconsumed text plan st ∧ swapped_inv i x y st) Hne) with
      (fuel := length text) (st := walk_init s)
    as (st' & Hwalk & Hi & _ & _ & Hsw).
  - intros st st' _ _ [Hu Hs] Hstep. split.
    + by eapply step_unconsumed.
    + by eapply step_swapped_inv.
  - simpl. lia.
  - apply behind_init.
  - split; [done |]. left. simpl. lia.
  - exists st'. split; [done |].
    destruct Hsw as [Hle | [Hout Hin]]; [lia |].
    split; [done |]. split; [done |].
    intros other. rewrite <- Hwalk.
    apply walk_plan_irrelevant with (j := i + 1); try done.
    + by apply consumed_after_swap.
    + intros k Hk. by rewrite lookup_partial_alter_ne.
    + apply behind_init.
Qed.

Lemma swap_exchanges_pair_witness :
  ∃ st',
    walk two_swaps abcdefgh english_alphabet swap_swap (length abcdefgh) (walk_init 3)
      = Some (Ok tt, st') ∧
    (∃ pre post, ws_new_text_list st' = pre ++ [98%N; 97%N] ++ post) ∧
    0 + 1 ∈ ws_processed_indices st' ∧
    ∀ other : option Operation,
      walk two_swaps abcdefgh english_alphabet (partial_alter (λ _, other) (0 + 1) swap_swap)
        (length abcdefgh) (walk_init 3) = Some (Ok tt, st').
Proof.
  apply (swap_exchanges_pair two_swaps abcdefgh english_alphabet swap_swap 3 0 97%N 98%N).
  - vm_compute. discriminate.
  - vm_compute. reflexivity.
  - reflexivity.
  - reflexivity.
  - reflexivity.
Defined.

(** Reading outside the text raises IndexError: a read past the end would
    leave the function as that exception or, inside the [try], end up as a
    printed warning. *)
Lemma getitem_out_of_range (text : pystr) (j : nat) (st : walk_state) :
  length text ≤ j → getitem text j st = (Raise IndexError, st).
Proof. intros Hj. unfold getitem. by rewrite lookup_ge_None_2. Qed.

(** C5. When a swap is planned at the final index, the walk finishes
    without an exception and without a warning (so no read fell outside the
    text), and the last character is in the output: as its last character
    when the final index is reached by the loop (the fallback), and as the
    first of its last two characters when a swap carried out at the index
    before has already emitted it. *)
Theorem swap_at_final_index (o : outcome) (text alphabet : pystr)
    (plan : gmap nat Operation) (s : nat) (c : N) :
  alphabet ≠ [] →
  last text = Some c →
  plan !! (length text - 1) = Some swap →
  ∃ st',
    walk o text alphabet plan (length text) (walk_init s) = Some (Ok tt, st') ∧
    ws_printed st' = [] ∧
    c ∈ ws_new_text_list st' ∧
    (consumed (length text) plan (length text - 1) = false →
       last (ws_new_text_list st') = Some c) ∧
    (consumed (length text) plan (length text - 1) = true →
       ∃ pre z, text !! (length text - 2) = Some z ∧
                ws_new_text_list st' = pre ++ [c; z]).
Proof.
  intros Hne Hlast Hp.
  assert (Hc : text !! (length text - 1) = Some c).
  { rewrite last_lookup in Hlast. by replace (length text - 1) with (pred (length text)) by lia. }
  assert (Hpos : 0 < length text) by (apply lookup_lt_Some in Hc; lia).
  destruct (walk_invariant o text alphabet plan
              (λ st, quiet st ∧ unconsumed text plan st ∧ final_swap_inv text plan c st) Hne)
    with (fuel := length text) (st := walk_init s)
    as (st' & Hwalk & Hi & _ & Hq & _ & Hfin).
  - intros st st' Hlt _ (Hq & Hu & _) Hstep. split; [by eapply step_quiet |]. split.
    + by eapply step_unconsumed.
    + by eapply step_final_swap_inv.
  - simpl. lia.
  - apply behind_init.
  - split; [done |]. split; [done |]. intros Hz. simpl in Hz. lia.
  - exists st'. split; [done |]. split; [done |].
    destruct (Hfin Hi) as [[Hcons [pre Hout]] | [Hcons (pre & z & Hz & Hout)]];
      rewrite Hout, Hcons.
    + split; [set_solver |]. split; [intros _; apply last_snoc | done].
    + split; [set_solver |]. split; [done |]. intros _. eauto.
Qed.

Lemma swap_at_final_index_witness :
  ∃ st',
    walk two_swaps abc hindi_alphabet (<[2 := swap]> ∅) (length abc) (walk_init 0)
      = Some (Ok tt, st') ∧
    ws_printed st' = [] ∧
    99%N ∈ ws_new_text_list st' ∧
    (consumed (length abc) (<[2 := swap]> ∅) (length abc - 1) = false →
       last (ws_new_text_list st') = Some 99%N) ∧
    (consumed (length abc) (<[2 := swap]> ∅) (length abc - 1) = true →
       ∃ pre z, abc !! (length abc - 2) = Some z ∧
                ws_new_text_list st' = pre ++ [99%N; z]).
Proof.
  apply (swap_at_final_index two_swaps abc hindi_alphabet (<[2 := swap]> ∅) 0 99%N).
  - vm_compute. discriminate.
  - reflexivity.
  - vm_compute. reflexivity.
Defined.

(** ** Validation and early returns *)

Lemma ALPHABETS_nonempty (language : string) (alphabet : pystr) :
  ALPHABETS !! language = Some alphabet → alphabet ≠ [].
Proof.
  unfold ALPHABETS. intros H.
  repeat (rewrite lookup_insert in H; case_decide;
          [injection H as <-; by vm_compute |]).
  by rewrite lookup_empty in H.
Qed.

(** C3, as stated, fails for the empty text: the call returns the empty
    string although neither the tier nor the language is recognised. *)
Lemma empty_text_skips_validation :
  NOISE_LEVEL_PERCENTAGES !! lower "extreme" = None ∧
  ALPHABETS !! lower "klingon" = None ∧
  add_char_noise two_swaps [] "extreme" "klingon" 0 = Some (Call (Ok []) 0 []).
Proof. repeat split; vm_compute; reflexivity. Qed.

(** C3, amended.  For every non-empty text, a tier or a language that is
    not registered after case folding, or a registered language whose
    alphabet is empty, makes the call raise ValueError with the draw
    counter untouched and nothing printed.  The tables are arbitrary, so
    that the case of an empty alphabet is covered. *)
Theorem invalid_arguments_raise (LEVELS : gmap string Q) (ALPHA : gmap string pystr)
    (o : outcome) (text : pystr) (noise_level language : string) (s : nat) :
  text ≠ [] →
  LEVELS !! lower noise_level = None ∨
  ALPHA !! lower language = None ∨
  ALPHA !! lower language = Some [] →
  add_char_noise_in LEVELS ALPHA o text noise_level language s
    = Some (Call (Raise ValueError) s []).
Proof.
  intros Htext Hbad. unfold add_char_noise_in.
  destruct text as [| c0 text']; [done |]. cbn [length Nat.eqb].
  destruct (LEVELS !! lower noise_level) as [pct |]; [| done].
  destruct Hbad as [Hbad | [-> | ->]]; [done | done | done].
Qed.

Lemma invalid_arguments_raise_witness :
  add_char_noise_in NOISE_LEVEL_PERCENTAGES ALPHABETS two_swaps abc "extreme" "english" 0
    = Some (Call (Raise ValueError) 0 []).
Proof.
  apply (invalid_arguments_raise NOISE_LEVEL_PERCENTAGES ALPHABETS two_swaps abc
           "extreme" "english" 0).
  - vm_compute. discriminate.
  - left. vm_compute. reflexivity.
Defined.

(** C6. For every valid tier and language, the text is returned unchanged,
    with no draw made, when it is empty or when the modification count is
    zero; "abcde" at tier low is such a case. *)
Theorem unchanged_when_nothing_to_modify (o : outcome) (text : pystr)
    (noise_level language : string) (s : nat) (percentage : Q) (alphabet : pystr) :
  NOISE_LEVEL_PERCENTAGES !! lower noise_level = Some percentage →
  ALPHABETS !! lower language = Some alphabet →
  text = [] ∨ num_chars percentage (length text) = 0 →
  add_char_noise o text noise_level language s = Some (Call (Ok text) s []) ∧
  num_chars (5 # 100) (length abcde) = 0 ∧
  add_char_noise o abcde "low" language s = Some (Call (Ok abcde) s []).
Proof.
  intros Hlevel Hlang Hzero.
  pose proof (ALPHABETS_nonempty _ _ Hlang) as Hne.
  split; [| split; [by vm_compute |]].
  - destruct Hzero as [-> | Hk]; [done |].
    unfold add_char_noise, add_char_noise_in.
    destruct text as [| c0 text']; [done |].
    rewrite Hlevel, Hlang, Hk. by destruct alphabet.
  - unfold add_char_noise, add_char_noise_in. rewrite Hlang.
    by destruct alphabet.
Qed.

Lemma unchanged_when_nothing_to_modify_witness :
  add_char_noise two_swaps abc "Medium" "Igbo" 7 = Some (Call (Ok abc) 7 []) ∧
  num_chars (5 # 100) (length abcde) = 0 ∧
  add_char_noise two_swaps abcde "low" "Igbo" 7 = Some (Call (Ok abcde) 7 []).
Proof.
  apply (unchanged_when_nothing_to_modify two_swaps abc "Medium" "Igbo" 7
           (15 # 100) igbo_alphabet).
  - vm_compute. reflexivity.
  - vm_compute. reflexivity.
  - right. vm_compute. reflexivity.
Defined.

(** C9. The empty text is returned as the empty string whatever the tier
    and the language, recognised or not: no exception, no draw. *)
Theorem empty_text_returns_empty (o : outcome) (noise_level language : string) (s : nat) :
  add_char_noise o [] noise_level language s = Some (Call (Ok []) s []).
Proof. reflexivity. Qed.

End CharacterNoiseProps.

(** * Properties of the image noise engine *)

Module ImageNoiseProps.
Import ImageNoiseFunctions ImageNoiseSpec.

(** ** Loading *)

Lemma alloc_fresh (w : world) (a : ndarray) :
  heap w !! fst (alloc w a) = None ∧
  heap (snd (alloc w a)) !! fst (alloc w a) = Some a ∧
  ∀ ref, ref ≠ fst (alloc w a) → heap (snd (alloc w a)) !! ref = heap w !! ref.
Proof.
  unfold alloc. simpl. set (l := fresh (dom (heap w))).
  assert (Hl : heap w !! l = None).
  { apply not_elem_of_dom. apply is_fresh. }
  split; [done |]. split.
  - apply lookup_insert_eq.
  - intros ref Hne. by apply lookup_insert_ne.
Qed.


(** Whatever is loaded is alive in the resulting world. *)
Lemma load_image_alive (w w1 : world) (img_input : image_input) (img : nat) :
  _load_image w img_input = (Ok img, w1) → is_Some (heap w1 !! img).
Proof.
  unfold _load_image. intros H.
  destruct (match img_input with Path _ => _ | Array _ => _ end) as [[l | e] w'];
    [| congruence].
  destruct (heap w' !! l) as [a |] eqn:Ha; [| congruence].
  destruct (negb _); [congruence |]. destruct (size a =? 0); [congruence |].
  injection H as <- <-. eauto.
Qed.

(** ** Patch geometry *)

Lemma int_sqrt_times_spec (ratio : Q) (d : nat) :
  (0 <= ratio)%Q →
  (inject_Z (Z.of_nat (int_sqrt_times ratio d) * Z.of_nat (int_sqrt_times ratio d))
     <= ratio * inject_Z (Z.of_nat d * Z.of_nat d))%Q ∧
  (ratio * inject_Z (Z.of_nat d * Z.of_nat d)
     < inject_Z ((Z.of_nat (int_sqrt_times ratio d) + 1)
                 * (Z.of_nat (int_sqrt_times ratio d) + 1)))%Q.
Proof.
  intros Hr. unfold int_sqrt_times.
  set (x := (ratio * inject_Z (Z.of_nat d * Z.of_nat d))%Q).
  assert (Hx : (0 <= x)%Q).
  { unfold x. apply Qmult_le_0_compat; [done |].
    change 0%Q with (inject_Z 0). rewrite <- Zle_Qle. nia. }
  assert (Hf : (0 <= Qfloor x)%Z).
  { change 0%Z with (Qfloor 0). by apply Qfloor_resp_le. }
  rewrite Z2Nat.id by apply Z.sqrt_nonneg.
  pose proof (Z.sqrt_spec (Qfloor x) Hf) as [Hlo Hhi]. split.
  - eapply Qle_trans; [| apply Qfloor_le]. by rewrite <- Zle_Qle.
  - eapply Qlt_le_trans; [apply Qlt_floor |]. rewrite <- Zle_Qle.
    unfold Z.succ in Hhi. lia.
Qed.

Lemma int_sqrt_times_le (ratio : Q) (d : nat) :
  (ratio <= 1)%Q → int_sqrt_times ratio d ≤ d.
Proof.
  intros Hr. unfold int_sqrt_times.
  set (x := (ratio * inject_Z (Z.of_nat d * Z.of_nat d))%Q).
  assert (Hx : (x <= inject_Z (Z.of_nat d * Z.of_nat d))%Q).
  { unfold x. rewrite <- (Qmult_1_l (inject_Z (Z.of_nat d * Z.of_nat d))) at 2.
    apply Qmult_le_compat_r; [done |].
    change 0%Q with (inject_Z 0). rewrite <- Zle_Qle. nia. }
  apply Qfloor_resp_le in Hx. rewrite Qfloor_Z in Hx.
  apply Z.sqrt_le_mono in Hx. rewrite Z.sqrt_square in Hx by lia. lia.
Qed.

Lemma occlusion_ratio_range (occlusion_level : string) (ratio : Q) :
  occlusion_ratio occlusion_level = Ok ratio → (0 <= ratio)%Q ∧ (ratio <= 1)%Q.
Proof.
  unfold occlusion_ratio. intros H.
  repeat case_decide; try congruence; injection H as <-; by vm_compute.
Qed.



(** ** Occlusion *)






(** The caller's array is left as it was: the rectangle is drawn on the
    copy made by [_load_image]. *)
Lemma apply_occlusion_keeps_input (drawn : nat → nat) (w w' : world) (ref : nat)
    (occlusion_level : string) (s s' : nat) (r : result nat) :
  apply_occlusion drawn w (Array ref) occlusion_level s = (r, w', s') →
  heap w' !! ref = heap w !! ref.
Proof.
  unfold apply_occlusion, _load_image. intros H.
  destruct (heap w !! ref) as [a |] eqn:Href; [| by injection H as <- <- <-].
  destruct (alloc_fresh w a) as (Hfresh & Hnew & Hold).
  destruct (alloc w a) as [l w1]. simpl in *. rewrite Hnew in H.
  assert (Hne : ref ≠ l) by (intros ->; congruence).
  assert (Hkeep : heap w1 !! ref = Some a) by (rewrite Hold; done).
  destruct (negb _); [injection H as <- <- <-; done |].
  destruct (size a =? 0); [injection H as <- <- <-; done |].
  rewrite Hnew in H.
  destruct (occlusion_ratio occlusion_level); [| injection H as <- <- <-; done].
  destruct (cv_mean_checked a); injection H as <- <- <-; [| done].
  cbn [heap]. by rewrite lookup_insert_ne.
Qed.

(** C8 does not hold of the code.  On the 3 x 3 image [corner9] at tier low
    with both draws 0, the patch is the single pixel (0, 0), yet the array
    returned differs from the input at (0, 1), (1, 0) and (1, 1) too: the
    far corner handed to [cv.rectangle] is one past the patch and the
    rectangle drawn includes it.  (The caller's array itself is intact.) *)
Theorem occlusion_overdraws_patch :
  let p := occlusion_patch (8 # 100) 3 3 0 0 in
  p = Patch 0 0 1 1 ∧
  ∃ w',
    apply_occlusion (λ _, 0) corner9_world (Array 0) "low" 0 = (Ok 1, w', 2) ∧
    heap w' !! 0 = Some corner9 ∧
    heap w' !! 1 = Some (NdArray [3; 3] [1; 1; 0; 1; 1; 0; 0; 0; 9]%Z) ∧
    data corner9 !! 4 = Some 0%Z ∧
    sample_y corner9 4 = 1 ∧ sample_x corner9 4 = 1 ∧
    ¬ (start_y p ≤ 1 < start_y p + patch_h p ∧ start_x p ≤ 1 < start_x p + patch_w p).
Proof.
  split; [vm_compute; reflexivity |].
  eexists. split; [vm_compute; reflexivity |].
  split; [vm_compute; reflexivity |]. split; [vm_compute; reflexivity |].
  split; [reflexivity |]. split; [reflexivity |]. split; [reflexivity |].
  vm_compute. lia.
Qed.

(** ** Tier names *)

(** C4, as stated, fails for the two image functions: "Low" is a casing of
    "low", yet both raise ValueError on it (and succeed on "low"). *)
Lemma image_tier_is_case_sensitive :
  lower "Low" = "low" ∧
  fst (apply_gaussian_blur (λ a _ _, a) corner9_world (Array 0) "Low") = Raise ValueError ∧
  fst (apply_gaussian_blur (λ a _ _, a) corner9_world (Array 0) "low") = Ok 2 ∧
  fst (fst (apply_occlusion (λ _, 0) corner9_world (Array 0) "Low" 0)) = Raise ValueError ∧
  fst (fst (apply_occlusion (λ _, 0) corner9_world (Array 0) "low" 0)) = Ok 1.
Proof. repeat split; vm_compute; reflexivity. Qed.

Lemma blur_sigma_unknown (blur_level : string) :
  blur_level ∉ ["low"; "medium"; "high"] → blur_sigma blur_level = Raise ValueError.
Proof.
  intros Hnot. unfold blur_sigma.
  repeat case_decide; try done; subst; exfalso; apply Hnot; set_solver.
Qed.

Lemma occlusion_ratio_unknown (occlusion_level : string) :
  occlusion_level ∉ ["low"; "medium"; "high"] →
  occlusion_ratio occlusion_level = Raise ValueError.
Proof.
  intros Hnot. unfold occlusion_ratio.
  repeat case_decide; try done; subst; exfalso; apply Hnot; set_solver.
Qed.

(** C4, amended.  [add_char_noise] folds the case of its tier: any casing
    [v] of a tier name behaves as the lowercase name and selects the same
    fraction (0.05, 0.15, 0.25).  The two image functions compare the tier
    as given: "low", "medium" and "high" select sigma 1, 3, 6 and ratio
    0.08, 0.20, 0.40, and any other string, other casings included, raises
    ValueError once the image has been loaded. *)
Theorem tier_name_handling (o : CharacterNoiseFunctions.outcome) (text : pystr)
    (v name language : string) (s : nat)
    (GaussianBlur : ndarray → Q → Q → ndarray) (drawn : nat → nat)
    (w w1 : world) (img_input : image_input) (img : nat) (level : string) :
  name ∈ ["low"; "medium"; "high"] →
  lower v = name →
  level ∉ ["low"; "medium"; "high"] →
  _load_image w img_input = (Ok img, w1) →
  (CharacterNoiseFunctions.add_char_noise o text v language s
     = CharacterNoiseFunctions.add_char_noise o text name language s ∧
   CharacterNoiseFunctions.NOISE_LEVEL_PERCENTAGES !! lower v
     = CharacterNoiseFunctions.NOISE_LEVEL_PERCENTAGES !! name) ∧
  (CharacterNoiseFunctions.NOISE_LEVEL_PERCENTAGES !! "low" = Some (5 # 100)%Q ∧
   CharacterNoiseFunctions.NOISE_LEVEL_PERCENTAGES !! "medium" = Some (15 # 100)%Q ∧
   CharacterNoiseFunctions.NOISE_LEVEL_PERCENTAGES !! "high" = Some (25 # 100)%Q) ∧
  (blur_sigma "low" = Ok (1 # 1)%Q ∧ blur_sigma "medium" = Ok (3 # 1)%Q ∧
   blur_sigma "high" = Ok (6 # 1)%Q) ∧
  (occlusion_ratio "low" = Ok (8 # 100)%Q ∧ occlusion_ratio "medium" = Ok (20 # 100)%Q ∧
   occlusion_ratio "high" = Ok (40 # 100)%Q) ∧
  apply_gaussian_blur GaussianBlur w img_input level = (Raise ValueError, w1) ∧
  apply_occlusion drawn w img_input level s = (Raise ValueError, w1, s).
Proof.
  intros Hname Hv Hlevel Hload.
  assert (Hfix : lower name = name).
  { rewrite !elem_of_cons in Hname.
    destruct Hname as [-> | [-> | [-> | Hnil]]]; try done.
    by apply elem_of_nil in Hnil. }
  split.
  { split; [| by rewrite Hv].
    unfold CharacterNoiseFunctions.add_char_noise, CharacterNoiseFunctions.add_char_noise_in.
    by rewrite Hv, Hfix. }
  split; [repeat split; by vm_compute |].
  split; [done |]. split; [done |].
  destruct (load_image_alive _ _ _ _ Hload) as [a Ha].
  unfold apply_gaussian_blur, apply_occlusion. rewrite Hload.
  rewrite blur_sigma_unknown, occlusion_ratio_unknown by done.
  by rewrite Ha.
Qed.

Lemma tier_name_handling_witness :
  (CharacterNoiseFunctions.add_char_noise CharacterNoiseSpec.two_swaps
     CharacterNoiseSpec.abcdefgh "HiGH" "english" 0
     = CharacterNoiseFunctions.add_char_noise CharacterNoiseSpec.two_swaps
         CharacterNoiseSpec.abcdefgh "high" "english" 0 ∧
   CharacterNoiseFunctions.NOISE_LEVEL_PERCENTAGES !! lower "HiGH"
     = CharacterNoiseFunctions.NOISE_LEVEL_PERCENTAGES !! "high") ∧
  (CharacterNoiseFunctions.NOISE_LEVEL_PERCENTAGES !! "low" = Some (5 # 100)%Q ∧
   CharacterNoiseFunctions.NOISE_LEVEL_PERCENTAGES !! "medium" = Some (15 # 100)%Q ∧
   CharacterNoiseFunctions.NOISE_LEVEL_PERCENTAGES !! "high" = Some (25 # 100)%Q) ∧
  (blur_sigma "low" = Ok (1 # 1)%Q ∧ blur_sigma "medium" = Ok (3 # 1)%Q ∧
   blur_sigma "high" = Ok (6 # 1)%Q) ∧
  (occlusion_ratio "low" = Ok (8 # 100)%Q ∧ occlusion_ratio "medium" = Ok (20 # 100)%Q ∧
   occlusion_ratio "high" = Ok (40 # 100)%Q) ∧
  apply_gaussian_blur (λ a _ _, a) corner9_world (Array 0) "HiGH"
    = (Raise ValueError, snd (alloc corner9_world corner9)) ∧
  apply_occlusion (λ _, 0) corner9_world (Array 0) "HiGH" 0
    = (Raise ValueError, snd (alloc corner9_world corner9), 0).
Proof.
  apply (tier_name_handling CharacterNoiseSpec.two_swaps CharacterNoiseSpec.abcdefgh
           "HiGH" "high" "english" 0 (λ a _ _, a) (λ _, 0)
           corner9_world (snd (alloc corner9_world corner9)) (Array 0) 1 "HiGH").
  - apply (bool_decide_unpack _). vm_compute. exact I.
  - vm_compute. reflexivity.
  - apply (bool_decide_unpack _). vm_compute. exact I.
  - vm_compute. reflexivity.
Defined.

End ImageNoiseProps.

(** * Further properties of the character noise engine *)

Module CharacterNoiseMore.
Import CharacterNoiseFunctions CharacterNoiseSpec CharacterNoiseProps.

(** ** The configuration tables *)

Lemma level_lookup (t : string) :
  (t ∈ tier_names → is_Some (NOISE_LEVEL_PERCENTAGES !! t)) ∧
  (t ∉ tier_names → NOISE_LEVEL_PERCENTAGES !! t = None).
Proof.
  unfold tier_names, NOISE_LEVEL_PERCENTAGES. split.
  - rewrite !elem_of_cons. intros [-> | [-> | [-> | H]]]; try (by vm_compute; eauto).
    by apply elem_of_nil in H.
  - intros Hnot.
    repeat (rewrite lookup_insert_ne
              by (intros <-; apply Hnot; rewrite !elem_of_cons; tauto)).
    apply lookup_empty.
Qed.

Lemma alphabet_lookup (l : string) :
  (l ∈ language_names → is_Some (ALPHABETS !! l)) ∧
  (l ∉ language_names → ALPHABETS !! l = None).
Proof.
  unfold language_names, ALPHABETS. split.
  - rewrite !elem_of_cons. intros [-> | [-> | [-> | H]]]; try (by vm_compute; eauto).
    by apply elem_of_nil in H.
  - intros Hnot.
    repeat (rewrite lookup_insert_ne
              by (intros <-; apply Hnot; rewrite !elem_of_cons; tauto)).
    apply lookup_empty.
Qed.

(** X10. Every registered alphabet is non-empty, lists no symbol twice
    and contains the space. *)
Theorem registered_alphabets_sound (language : string) (alphabet : pystr) :
  ALPHABETS !! language = Some alphabet →
  alphabet ≠ [] ∧ NoDup alphabet ∧ 32%N ∈ alphabet.
Proof.
  unfold ALPHABETS. intros H.
  repeat (rewrite lookup_insert in H; case_decide;
          [injection H as <-; split; [by vm_compute |];
           split; apply (bool_decide_unpack _); by vm_compute |]).
  by rewrite lookup_empty in H.
Qed.

Lemma registered_alphabets_sound_witness :
  hindi_alphabet ≠ [] ∧ NoDup hindi_alphabet ∧ 32%N ∈ hindi_alphabet.
Proof.
  apply (registered_alphabets_sound "hindi" hindi_alphabet).
  vm_compute. reflexivity.
Defined.

(** ** The modification plan *)

Lemma assign_operations_dom (o : outcome) (indices : list nat) :
  ∀ (m : gmap nat Operation) (s : nat),
    ∃ m', assign_operations o indices m s = (Ok m', s + length indices)
          ∧ dom m' = dom m ∪ list_to_set indices.
Proof.
  induction indices as [| idx rest IH]; intros m s; simpl.
  - exists m. rewrite Nat.add_0_r. split; [done |].
    by rewrite (right_id_L ∅ (∪)).
  - destruct (random_choice_operations o s) as [op ->].
    destruct (IH (<[idx := op]> m) (S s)) as (m' & -> & Hdom).
    exists m'. split; [f_equal; lia |].
    rewrite Hdom, dom_insert_L.
    by rewrite (comm_L (∪) {[idx]} (dom m)), <- (assoc_L (∪)).
Qed.

(** Past the early returns, a call runs the loop on the plan assigned to
    the sorted sample, after one draw per sampled index. *)
Lemma add_char_noise_in_plan (LEVELS : gmap string Q) (ALPHA : gmap string pystr)
    (o : outcome) (text : pystr) (noise_level language : string) (s : nat)
    (percentage : Q) (alphabet : pystr) :
  text ≠ [] →
  LEVELS !! lower noise_level = Some percentage →
  ALPHA !! lower language = Some alphabet →
  alphabet ≠ [] →
  num_chars percentage (length text) ≠ 0 →
  ∃ plan,
    assign_operations o (merge_sort Nat.le (sampled o)) ∅ (S s)
      = (Ok plan, S s + length (sampled o)) ∧
    add_char_noise_in LEVELS ALPHA o text noise_level language s =
      match walk o text alphabet plan (length text)
              (walk_init (S s + length (sampled o))) with
      | None => None
      | Some (Raise e, st) => Some (Call (Raise e) (ws_draws st) (ws_printed st))
      | Some (Ok _, st) => Some (Call (Ok (ws_new_text_list st)) (ws_draws st) (ws_printed st))
      end.
Proof.
  intros Htext Hlevel Hlang Hne Hk.
  destruct (assign_operations_dom o (merge_sort Nat.le (sampled o)) ∅ (S s))
    as (plan & Hplan & _).
  rewrite (Permutation_length (merge_sort_Permutation Nat.le (sampled o))) in Hplan.
  exists plan. split; [done |].
  unfold add_char_noise_in. rewrite Hlevel, Hlang.
  destruct text as [| c0 text']; [done |].
  destruct alphabet as [| a0 alphabet']; [done |].
  change (length (c0 :: text') =? 0) with false. cbv iota.
  rewrite (proj2 (Nat.eqb_neq _ _) Hk).
  unfold random_sample. by rewrite Hplan.
Qed.

(** X2. When [random.sample] honours its contract, the plan built from it
    has exactly the sampled indices as keys, hence [k] keys, all of them
    indices of the text, and building it takes one draw per key. *)
Theorem modification_plan_keys (o : outcome) (n k s : nat) :
  is_sample n k (sampled o) →
  ∃ plan,
    assign_operations o (merge_sort Nat.le (sampled o)) ∅ s = (Ok plan, s + k) ∧
    size plan = k ∧
    (∀ j, is_Some (plan !! j) ↔ j ∈ sampled o) ∧
    (∀ j, is_Some (plan !! j) → j < n).
Proof.
  intros (Hlen & Hnodup & Hrange).
  pose proof (merge_sort_Permutation Nat.le (sampled o)) as Hperm.
  destruct (assign_operations_dom o (merge_sort Nat.le (sampled o)) ∅ s)
    as (plan & Hplan & Hdom).
  rewrite (Permutation_length Hperm), Hlen in Hplan.
  rewrite dom_empty_L, (left_id_L ∅ (∪)) in Hdom.
  assert (Hkeys : ∀ j, is_Some (plan !! j) ↔ j ∈ sampled o).
  { intros j. rewrite <- elem_of_dom, Hdom, elem_of_list_to_set. by rewrite Hperm. }
  exists plan. split; [done |]. split; [| split; [done |]].
  - rewrite <- size_dom, Hdom, size_list_to_set.
    + by rewrite (Permutation_length Hperm).
    + by rewrite Hperm.
  - intros j Hj. apply Hkeys in Hj.
    rewrite Forall_forall in Hrange. by apply Hrange.
Qed.

Lemma modification_plan_keys_witness :
  ∃ plan,
    assign_operations two_swaps (merge_sort Nat.le (sampled two_swaps)) ∅ 1 = (Ok plan, 1 + 2) ∧
    size plan = 2 ∧
    (∀ j, is_Some (plan !! j) ↔ j ∈ sampled two_swaps) ∧
    (∀ j, is_Some (plan !! j) → j < 8).
Proof.
  apply (modification_plan_keys two_swaps 8 2 1).
  apply (bool_decide_unpack _). vm_compute. exact I.
Defined.

(** ** Every call returns, and how *)

Lemma unregistered_names_raise (o : outcome) (text : pystr)
    (noise_level language : string) (s : nat) :
  text ≠ [] →
  NOISE_LEVEL_PERCENTAGES !! lower noise_level = None ∨
  ALPHABETS !! lower language = None →
  add_char_noise o text noise_level language s = Some (Call (Raise ValueError) s []).
Proof.
  intros Htext Hbad. unfold add_char_noise, add_char_noise_in.
  destruct text as [| c0 text']; [done |]. cbn [length Nat.eqb].
  destruct (NOISE_LEVEL_PERCENTAGES !! lower noise_level) as [pct |]; [| done].
  destruct Hbad as [Hbad | ->]; done.
Qed.

(** X1. A call always returns: with ValueError exactly when the text is
    not empty and the folded tier or the folded language is not a
    registered name, and with a string otherwise, whatever the draws are
    (even a sample that breaks its contract).  Nothing is ever printed, so
    the except branch of the loop is never entered. *)
Theorem add_char_noise_outcomes (o : outcome) (text : pystr)
    (noise_level language : string) (s : nat) :
  ∃ r s',
    add_char_noise o text noise_level language s = Some (Call r s' []) ∧
    (r = Raise ValueError ↔
       text ≠ [] ∧ (lower noise_level ∉ tier_names ∨ lower language ∉ language_names)) ∧
    (r ≠ Raise ValueError → ∃ noisy, r = Ok noisy).
Proof.
  destruct text as [| c0 text'] eqn:Htext.
  { exists (Ok []), s. split; [done |]. split; [| eauto].
    split; [done | by intros [? _]]. }
  rewrite <- Htext. assert (Hnil : text ≠ []) by (by rewrite Htext).
  destruct (decide (lower noise_level ∈ tier_names)) as [Ht | Ht].
  2:{ exists (Raise ValueError), s. split; [| split; [| done]].
      - apply unregistered_names_raise; [done |]. left. by apply level_lookup.
      - split; [| done]. intros _. split; [done | by left]. }
  destruct (decide (lower language ∈ language_names)) as [Hl | Hl].
  2:{ exists (Raise ValueError), s. split; [| split; [| done]].
      - apply unregistered_names_raise; [done |]. right. by apply alphabet_lookup.
      - split; [| done]. intros _. split; [done | by right]. }
  destruct (proj1 (level_lookup _) Ht) as [pct Hpct].
  destruct (proj1 (alphabet_lookup _) Hl) as [alphabet Halpha].
  pose proof (ALPHABETS_nonempty _ _ Halpha) as Hne.
  assert (Hgood : ∀ noisy s', add_char_noise o text noise_level language s
                                = Some (Call (Ok noisy) s' []) →
            ∃ r s', add_char_noise o text noise_level language s = Some (Call r s' []) ∧
              (r = Raise ValueError ↔
                 text ≠ [] ∧ (lower noise_level ∉ tier_names ∨ lower language ∉ language_names)) ∧
              (r ≠ Raise ValueError → ∃ noisy, r = Ok noisy)).
  { intros noisy s' Hrun. exists (Ok noisy), s'. split; [done |]. split; [| eauto].
    split; [done |]. intros [_ [? | ?]]; done. }
  destruct (decide (num_chars pct (length text) = 0)) as [Hk | Hk].
  { apply (Hgood text s). unfold add_char_noise, add_char_noise_in.
    rewrite Hpct, Halpha, Hk. rewrite Htext at 1. by destruct alphabet. }
  destruct (add_char_noise_in_walk NOISE_LEVEL_PERCENTAGES ALPHABETS o text
              noise_level language s pct alphabet Hnil Hpct Halpha Hne Hk)
    as (plan & s2 & _ & Hrun).
  destruct (walk_invariant o text alphabet plan quiet Hne) with
      (fuel := length text) (st := walk_init s2) as (st' & Hwalk & _ & _ & Hq).
  - intros st st' _ _ Hq Hs. by eapply step_quiet.
  - simpl. lia.
  - apply behind_init.
  - done.
  - apply (Hgood (ws_new_text_list st') (ws_draws st')).
    unfold add_char_noise. by rewrite Hrun, Hwalk, Hq.
Qed.

(** ** Lengths and draws *)

Lemma carried_out_S (n : nat) (plan : gmap nat Operation) (op : Operation) (i : nat) :
  carried_out n plan op (S i) =
  carried_out n plan op i +
  (if decide (plan !! i = Some op ∧ consumed n plan i = false) then 1 else 0).
Proof.
  unfold carried_out. rewrite seq_S, filter_app, length_app. simpl.
  f_equal. rewrite filter_cons, filter_nil. by case_decide.
Qed.

Lemma carried_out_skip (n : nat) (plan : gmap nat Operation) (op : Operation) (i : nat) :
  (plan !! i ≠ Some op ∨ consumed n plan i = true) →
  carried_out n plan op (S i) = carried_out n plan op i.
Proof.
  intros H. rewrite carried_out_S. rewrite decide_False; [lia |].
  intros [? ?]. destruct H; congruence.
Qed.

Lemma carried_out_hit (n : nat) (plan : gmap nat Operation) (op : Operation) (i : nat) :
  plan !! i = Some op → consumed n plan i = false →
  carried_out n plan op (S i) = S (carried_out n plan op i).
Proof. intros H1 H2. rewrite carried_out_S. rewrite decide_True by done. lia. Qed.

Section Counting.
Context (o : outcome) (text alphabet : pystr) (plan : gmap nat Operation).

Lemma step_exact_length st st' :
  unconsumed text plan st →
  length (ws_new_text_list st) + carried_out (length text) plan delete (ws_i st)
    = ws_i st + carried_out (length text) plan insert (ws_i st) →
  step text alphabet plan st st' →
  length (ws_new_text_list st') + carried_out (length text) plan delete (ws_i st')
    = ws_i st' + carried_out (length text) plan insert (ws_i st').
Proof.
  unfold unconsumed. intros Hu Hinv Hs.
  inversion Hs as [c Hp Ht | Hp | c d Hp Hc Hd | c x Hp Hc Ht
                  | x y Hp Hlt Hx Hy | x Hp Hlt Hx]; subst; simpl;
    rewrite ?length_app; simpl;
    try replace (ws_i st + 1) with (S (ws_i st)) by lia.
  - rewrite !carried_out_skip by (left; congruence). lia.
  - rewrite (carried_out_hit _ _ delete) by done.
    rewrite carried_out_skip by (left; congruence). lia.
  - rewrite !carried_out_skip by (left; congruence). lia.
  - rewrite (carried_out_hit _ _ insert) by done.
    rewrite carried_out_skip by (left; congruence). lia.
  - replace (ws_i st + 2) with (S (S (ws_i st))) by lia.
    pose proof (consumed_after_swap text plan _ Hp Hu Hlt) as Hc.
    replace (ws_i st + 1) with (S (ws_i st)) in Hc by lia.
    rewrite !(carried_out_skip _ _ _ (S (ws_i st))) by (by right).
    rewrite !carried_out_skip by (left; congruence). lia.
  - rewrite !carried_out_skip by (left; congruence). lia.
Qed.

Lemma step_draws (s0 : nat) st st' :
  s0 ≤ ws_draws st ≤ s0 + 6 * planned_below plan (ws_i st) →
  step text alphabet plan st st' →
  s0 ≤ ws_draws st' ≤ s0 + 6 * planned_below plan (ws_i st').
Proof.
  intros Hinv Hs.
  inversion Hs as [c Hp Ht | Hp | c d Hp Hc Hd | c x Hp Hc Ht
                  | x y Hp Hlt Hx Hy | x Hp Hlt Hx]; subst; simpl;
    try (replace (ws_i st + 1) with (S (ws_i st)) by lia;
         rewrite planned_below_S, Hp; lia).
  pose proof (planned_below_mono plan (ws_i st) (ws_i st + 2)). lia.
Qed.

End Counting.

(** X3. The output of the walk is longer than the text by the number of
    insertions carried out and shorter by the number of deletions carried
    out, an operation being carried out when its index is not consumed by
    a swap; substitutions and swaps leave the length alone. *)
Theorem walk_exact_length (o : outcome) (text alphabet : pystr)
    (plan : gmap nat Operation) (s : nat) :
  alphabet ≠ [] →
  ∃ st',
    walk o text alphabet plan (length text) (walk_init s) = Some (Ok tt, st') ∧
    length (ws_new_text_list st') + carried_out (length text) plan delete (length text)
      = length text + carried_out (length text) plan insert (length text).
Proof.
  intros Hne.
  destruct (walk_invariant o text alphabet plan
              (λ st, unconsumed text plan st ∧
                     length (ws_new_text_list st)
                       + carried_out (length text) plan delete (ws_i st)
                     = ws_i st + carried_out (length text) plan insert (ws_i st)) Hne)
    with (fuel := length text) (st := walk_init s)
    as (st' & Hwalk & Hi & _ & _ & Hlen).
  - intros st st' _ _ [Hu Hl] Hs. split.
    + by eapply step_unconsumed.
    + by eapply step_exact_length.
  - simpl. lia.
  - apply behind_init.
  - done.
  - exists st'. split; [done |]. by rewrite Hi in Hlen.
Qed.

Lemma walk_exact_length_witness :
  ∃ st',
    walk two_swaps abcdefgh hindi_alphabet (<[1 := delete]> (<[4 := insert]> ∅))
      (length abcdefgh) (walk_init 0) = Some (Ok tt, st') ∧
    length (ws_new_text_list st')
      + carried_out (length abcdefgh) (<[1 := delete]> (<[4 := insert]> ∅)) delete
          (length abcdefgh)
      = length abcdefgh
        + carried_out (length abcdefgh) (<[1 := delete]> (<[4 := insert]> ∅)) insert
            (length abcdefgh).
Proof.
  apply (walk_exact_length two_swaps abcdefgh hindi_alphabet
           (<[1 := delete]> (<[4 := insert]> ∅)) 0).
  vm_compute. discriminate.
Defined.

(** X4. With [k] indices sampled, a call that modifies the text makes at
    least [1 + k] draws (the sample and one operation per index) and at
    most [1 + 7 k]: a substitution draws at most six times, an insertion
    once, a deletion and a swap never. *)
Theorem add_char_noise_draws (o : outcome) (text : pystr)
    (noise_level language : string) (s : nat) (percentage : Q) (alphabet : pystr) :
  NOISE_LEVEL_PERCENTAGES !! lower noise_level = Some percentage →
  ALPHABETS !! lower language = Some alphabet →
  num_chars percentage (length text) ≠ 0 →
  is_sample (length text) (num_chars percentage (length text)) (sampled o) →
  ∃ noisy s',
    add_char_noise o text noise_level language s = Some (Call (Ok noisy) s' []) ∧
    s + 1 + num_chars percentage (length text) ≤ s' ∧
    s' ≤ s + 1 + 7 * num_chars percentage (length text).
Proof.
  intros Hlevel Hlang Hk (Hlen & _ & _).
  pose proof (ALPHABETS_nonempty _ _ Hlang) as Hne.
  assert (Hnil : text ≠ []).
  { intros ->. apply Hk. unfold num_chars. destruct percentage as [a b].
    cbn. rewrite Z.mul_0_r. by rewrite Zdiv_0_l. }
  destruct (add_char_noise_in_plan NOISE_LEVEL_PERCENTAGES ALPHABETS o text
              noise_level language s percentage alphabet Hnil Hlevel Hlang Hne Hk)
    as (plan & Hplan & Hrun).
  destruct (assign_operations_ok o (merge_sort Nat.le (sampled o)) ∅ (S s))
    as (plan' & Hplan' & Hsize).
  rewrite Hplan in Hplan'. injection Hplan' as <- _.
  rewrite map_size_empty in Hsize.
  rewrite (Permutation_length (merge_sort_Permutation Nat.le (sampled o))), Hlen in Hsize.
  rewrite Hlen in Hrun.
  set (k := num_chars percentage (length text)) in *.
  destruct (walk_invariant o text alphabet plan
              (λ st, quiet st ∧
                     S s + k ≤ ws_draws st ≤ S s + k + 6 * planned_below plan (ws_i st)) Hne)
    with (fuel := length text) (st := walk_init (S s + k))
    as (st' & Hwalk & Hi & _ & Hq & Hd).
  - intros st st' _ _ [Hq Hd] Hs. split.
    + by eapply step_quiet.
    + by eapply step_draws.
  - simpl. lia.
  - apply behind_init.
  - split; [done |]. simpl. lia.
  - exists (ws_new_text_list st'), (ws_draws st').
    unfold add_char_noise. rewrite Hrun, Hwalk, Hq. split; [done |].
    pose proof (planned_below_size plan (ws_i st')). lia.
Qed.

Lemma add_char_noise_draws_witness :
  ∃ noisy s',
    add_char_noise two_swaps abcdefgh "high" "english" 0 = Some (Call (Ok noisy) s' []) ∧
    0 + 1 + num_chars (25 # 100) (length abcdefgh) ≤ s' ∧
    s' ≤ 0 + 1 + 7 * num_chars (25 # 100) (length abcdefgh).
Proof.
  apply (add_char_noise_draws two_swaps abcdefgh "high" "english" 0 (25 # 100)
           english_alphabet).
  - vm_compute. reflexivity.
  - vm_compute. reflexivity.
  - vm_compute. discriminate.
  - apply (bool_decide_unpack _). vm_compute. exact I.
Defined.

(** ** What is left alone *)

(** X5. Whatever precedes the smallest sampled index is copied unchanged:
    if every sampled index is at least [m], the first [m] characters of the
    result are the first [m] characters of the text. *)
Theorem text_before_first_target_is_kept (o : outcome) (text : pystr)
    (noise_level language : string) (s : nat) (percentage : Q) (alphabet : pystr)
    (m : nat) :
  NOISE_LEVEL_PERCENTAGES !! lower noise_level = Some percentage →
  ALPHABETS !! lower language = Some alphabet →
  (∀ j, j ∈ sampled o → m ≤ j) →
  ∃ noisy s',
    add_char_noise o text noise_level language s = Some (Call (Ok noisy) s' []) ∧
    take m noisy = take m text.
Proof.
  intros Hlevel Hlang Hmin.
  pose proof (ALPHABETS_nonempty _ _ Hlang) as Hne.
  destruct text as [| c0 text'] eqn:Htext.
  { exists [], s. by split. }
  rewrite <- Htext in *. assert (Hnil : text ≠ []) by (by rewrite Htext).
  destruct (decide (num_chars percentage (length text) = 0)) as [Hk | Hk].
  { exists text, s. split; [| done].
    unfold add_char_noise, add_char_noise_in. rewrite Hlevel, Hlang, Hk.
    rewrite Htext at 1. destruct alphabet; done. }
  destruct (add_char_noise_in_plan NOISE_LEVEL_PERCENTAGES ALPHABETS o text
              noise_level language s percentage alphabet Hnil Hlevel Hlang Hne Hk)
    as (plan & Hplan & Hrun).
  assert (Hfree : ∀ j, j < m → plan !! j = None).
  { destruct (assign_operations_dom o (merge_sort Nat.le (sampled o)) ∅ (S s))
      as (plan' & Hplan' & Hdom).
    rewrite (Permutation_length (merge_sort_Permutation Nat.le (sampled o))) in Hplan'.
    rewrite Hplan in Hplan'. injection Hplan' as <-.
    intros j Hj. apply not_elem_of_dom. rewrite Hdom, dom_empty_L, (left_id_L ∅ (∪)).
    rewrite elem_of_list_to_set, (merge_sort_Permutation Nat.le (sampled o)).
    intros Hin. apply Hmin in Hin. lia. }
  destruct (walk_invariant o text alphabet plan
              (λ st, quiet st ∧
                     ((ws_i st ≤ m ∧ ws_new_text_list st = take (ws_i st) text) ∨
                      (m ≤ length text ∧ ∃ more, ws_new_text_list st = take m text ++ more)))
              Hne)
    with (fuel := length text) (st := walk_init (S s + length (sampled o)))
    as (st' & Hwalk & Hi & _ & Hq & Hpre).
  - intros st st' Hlt _ [Hq Hpre] Hs. split; [by eapply step_quiet |].
    destruct Hpre as [[Hle Hout] | [Hm [more Hout]]].
    + destruct (decide (ws_i st = m)) as [Heq | Hneq].
      * right. split; [lia |].
        destruct (step_grows text alphabet plan st st' Hs) as [[more Hmore] _].
        exists more. by rewrite Hmore, Hout, Heq.
      * left. assert (Hp : plan !! ws_i st = None) by (apply Hfree; lia).
        inversion Hs; subst; simpl; try congruence.
        split; [lia |]. replace (ws_i st + 1) with (S (ws_i st)) by lia.
        erewrite take_S_r by eassumption. by rewrite Hout.
    + right. split; [done |].
      destruct (step_grows text alphabet plan st st' Hs) as [[more' Hmore] _].
      exists (more ++ more'). by rewrite Hmore, Hout, <- app_assoc.
  - simpl. lia.
  - apply behind_init.
  - split; [done |]. left. simpl. split; [lia | done].
  - exists (ws_new_text_list st'), (ws_draws st').
    unfold add_char_noise. rewrite Hrun, Hwalk, Hq. split; [done |].
    destruct Hpre as [[Hle Hout] | [Hm [more Hout]]]; rewrite Hout.
    + rewrite Hi. rewrite firstn_all. by rewrite take_ge by lia.
    + rewrite take_app_le by (rewrite length_take; lia).
      by rewrite take_take, Nat.min_id.
Qed.

Lemma text_before_first_target_is_kept_witness :
  ∃ noisy s',
    add_char_noise (Outcome [7; 2] (λ k, k)) abcdefgh "high" "hindi" 0
      = Some (Call (Ok noisy) s' []) ∧
    take 2 noisy = take 2 abcdefgh.
Proof.
  apply (text_before_first_target_is_kept (Outcome [7; 2] (λ k, k)) abcdefgh
           "high" "hindi" 0 (25 # 100) hindi_alphabet 2).
  - vm_compute. reflexivity.
  - vm_compute. reflexivity.
  - intros j Hj. cbn [sampled] in Hj. rewrite !elem_of_cons in Hj.
    destruct Hj as [-> | [-> | Hj]]; [lia | lia | by apply elem_of_nil in Hj].
Defined.

(** ** The bookkeeping of processed indices *)

Lemma walk_trace_unprocessed (o : outcome) (text alphabet : pystr)
    (plan : gmap nat Operation) :
  alphabet ≠ [] →
  ∀ fuel st, behind text st →
    Forall (λ st, ws_i st ∉ ws_processed_indices st)
           (walk_trace o text alphabet plan fuel st).
Proof.
  intros Hne fuel. induction fuel as [| fuel IH]; intros st Hb;
    assert (Hhere : ws_i st ∉ ws_processed_indices st)
      by (intros Hin; destruct Hb as [_ Hb]; specialize (Hb _ Hin); lia).
  - simpl. by apply Forall_singleton.
  - simpl. apply Forall_cons. split; [done |].
    destruct (ws_i st <? length text) eqn:Hlt; [| done].
    apply Nat.ltb_lt in Hlt.
    destruct (walk_body_step o text alphabet plan st Hne Hlt Hhere) as (st' & -> & Hs).
    apply IH. by eapply step_behind.
Qed.

Lemma walk_trace_last (o : outcome) (text alphabet : pystr)
    (plan : gmap nat Operation) :
  alphabet ≠ [] →
  ∀ fuel st st', behind text st →
    walk o text alphabet plan fuel st = Some (Ok tt, st') →
    last (walk_trace o text alphabet plan fuel st) = Some st'.
Proof.
  intros Hne fuel. induction fuel as [| fuel IH]; intros st st' Hb; simpl;
    unfold original_text_len.
  - destruct (ws_i st <? length text); [done |]. by intros [= ->].
  - destruct (ws_i st <? length text) eqn:Hlt; [| by intros [= ->]].
    apply Nat.ltb_lt in Hlt.
    destruct (walk_body_step o text alphabet plan st Hne Hlt) as (st1 & -> & Hs).
    { intros Hin. destruct Hb as [_ Hb]. specialize (Hb _ Hin). lia. }
    intros Hwalk. rewrite <- (IH st1 st') by (by eapply step_behind || done).
    destruct fuel; simpl; done.
Qed.

(** X6. The test [i in processed_indices] at the head of the loop never
    succeeds: in every state in which the loop condition is evaluated,
    from the first to the one in which the loop exits, the current index
    is not marked (a swap both marks [i + 1] and steps over it). *)
Theorem skip_branch_never_taken (o : outcome) (text alphabet : pystr)
    (plan : gmap nat Operation) (s : nat) :
  alphabet ≠ [] →
  Forall (λ st, ws_i st ∉ ws_processed_indices st)
         (walk_trace o text alphabet plan (length text) (walk_init s)) ∧
  ∃ st',
    walk o text alphabet plan (length text) (walk_init s) = Some (Ok tt, st') ∧
    last (walk_trace o text alphabet plan (length text) (walk_init s)) = Some st'.
Proof.
  intros Hne. split.
  - apply walk_trace_unprocessed; [done | apply behind_init].
  - destruct (walk_invariant o text alphabet plan (λ _, True) Hne) with
        (fuel := length text) (st := walk_init s) as (st' & Hwalk & _); try done.
    + simpl. lia.
    + apply behind_init.
    + exists st'. split; [done |].
      apply walk_trace_last; [done | apply behind_init | done].
Qed.

Lemma skip_branch_never_taken_witness :
  Forall (λ st, ws_i st ∉ ws_processed_indices st)
         (walk_trace two_swaps abcdefgh english_alphabet swap_swap
            (length abcdefgh) (walk_init 3)) ∧
  ∃ st',
    walk two_swaps abcdefgh english_alphabet swap_swap (length abcdefgh) (walk_init 3)
      = Some (Ok tt, st') ∧
    last (walk_trace two_swaps abcdefgh english_alphabet swap_swap
            (length abcdefgh) (walk_init 3)) = Some st'.
Proof.
  apply (skip_branch_never_taken two_swaps abcdefgh english_alphabet swap_swap 3).
  vm_compute. discriminate.
Defined.

(** ** Substitution retries and the except branch *)

(** X8. The retry loop of a substitution is best effort: it draws at most
    [r] more times and returns a symbol of the alphabet; it draws nothing
    when the first symbol already differs from the original character or
    when the alphabet has a single symbol; and when it does return the
    original character, the alphabet has a single symbol or all [r]
    retries were used. *)
Theorem retry_best_effort (o : outcome) (alphabet : pystr) (r : nat) (orig c : N)
    (st : walk_state) :
  alphabet ≠ [] → c ∈ alphabet →
  ∃ c' d,
    retry o alphabet r orig c st =
      (Ok c', WalkState (ws_i st) (ws_new_text_list st) (ws_processed_indices st)
                (ws_draws st + d) (ws_printed st)) ∧
    d ≤ r ∧ c' ∈ alphabet ∧
    (c ≠ orig ∨ length alphabet = 1 → d = 0 ∧ c' = c) ∧
    (c' = orig → length alphabet = 1 ∨ d = r).
Proof.
  intros Hne. revert c st. induction r as [| r IH]; intros c st Hc; simpl.
  - exists c, 0. rewrite Nat.add_0_r. destruct st. simpl.
    split; [done |]. split; [lia |]. split; [done |]. split; [done | by right].
  - destruct (c =? orig)%N eqn:Heq; simpl.
    + apply N.eqb_eq in Heq. subst c.
      destruct (1 <? length alphabet) eqn:Hlen.
      * apply Nat.ltb_lt in Hlen.
        unfold bind. destruct (choice_ok o alphabet st Hne) as (c1 & Hc1 & ->).
        destruct (IH c1 (WalkState (ws_i st) (ws_new_text_list st)
                           (ws_processed_indices st) (S (ws_draws st)) (ws_printed st)) Hc1)
          as (c' & d & -> & Hd & Hc' & _ & Hsame).
        exists c', (S d). simpl. split; [do 2 f_equal; lia |].
        split; [lia |]. split; [done |]. split.
        -- intros [? | ?]; [done | lia].
        -- intros Horig. destruct (Hsame Horig) as [? | ->]; [by left | by right].
      * apply Nat.ltb_ge in Hlen.
        assert (Hone : length alphabet = 1) by (destruct alphabet; simpl in *; [done | lia]).
        exists orig, 0. rewrite Nat.add_0_r. destruct st. simpl.
        split; [done |]. split; [lia |]. split; [done |]. split; [done | by left].
    + apply N.eqb_neq in Heq.
      exists c, 0. rewrite Nat.add_0_r. destruct st. simpl.
      split; [done |]. split; [lia |]. split; [done |]. split; [done | done].
Qed.

Lemma retry_best_effort_witness :
  ∃ c' d,
    retry always_zero hindi_alphabet 5 2309%N 2309%N (walk_init 0) =
      (Ok c', WalkState 0 [] ∅ (0 + d) []) ∧
    d ≤ 5 ∧ c' ∈ hindi_alphabet ∧
    (2309%N ≠ 2309%N ∨ length hindi_alphabet = 1 → d = 0 ∧ c' = 2309%N) ∧
    (c' = 2309%N → length hindi_alphabet = 1 ∨ d = 5).
Proof.
  apply (retry_best_effort always_zero hindi_alphabet 5 2309%N 2309%N (walk_init 0)).
  - vm_compute. discriminate.
  - apply (bool_decide_unpack _). vm_compute. exact I.
Defined.

(** X7. The except branch degrades a faulting operation to a copy: were
    the alphabet empty, a substitution or an insertion planned at a valid
    index would fault in [random.choice], and the loop body then prints
    one warning, emits the original character, makes no draw and moves on
    by one. *)
Theorem faulting_operation_degrades (o : outcome) (text : pystr)
    (plan : gmap nat Operation) (st : walk_state) (op : Operation) (x : N) :
  op = substitute ∨ op = insert →
  plan !! ws_i st = Some op →
  text !! ws_i st = Some x →
  ws_i st ∉ ws_processed_indices st →
  walk_body o text [] plan st =
    (Ok tt, WalkState (ws_i st + 1) (ws_new_text_list st ++ [x])
              (ws_processed_indices st) (ws_draws st)
              (ws_printed st ++ [(op, ws_i st)])).
Proof.
  intros Hop Hp Hx Hnp.
  unfold walk_body, bind, get_i, is_processed.
  rewrite bool_decide_eq_false_2 by done. rewrite Hp.
  unfold try_except, on_fault, bind, get_i, is_processed, print_warning.
  destruct Hop as [-> | ->];
    unfold apply_operation, bind, get_i, getitem, choice, random_choice;
    rewrite ?Hx; cbn; rewrite lookup_nil; cbn;
    rewrite bool_decide_eq_false_2 by done; cbn;
    by rewrite Hx.
Qed.

Lemma faulting_operation_degrades_witness :
  walk_body always_zero abc [] substitute_first (walk_init 0) =
    (Ok tt, WalkState (0 + 1) ([] ++ [97%N]) ∅ 0 ([] ++ [(substitute, 0)])).
Proof.
  apply (faulting_operation_degrades always_zero abc substitute_first (walk_init 0)
           substitute 97%N).
  - left. reflexivity.
  - vm_compute. reflexivity.
  - reflexivity.
  - apply (bool_decide_unpack _). vm_compute. exact I.
Defined.

(** ** Case folding of the names *)

Lemma char_lower_idempotent (c : ascii) : char_lower (char_lower c) = char_lower c.
Proof. destruct c as [[] [] [] [] [] [] [] []]; reflexivity. Qed.

Lemma lower_idempotent (name : string) : lower (lower name) = lower name.
Proof.
  induction name as [| c name IH]; [done |].
  simpl. by rewrite char_lower_idempotent, IH.
Qed.

(** X9. Tier and language are both read up to case: two spellings with
    the same lowercase form give the same call, and lowering the names
    beforehand changes nothing. *)
Theorem names_are_case_insensitive (o : outcome) (text : pystr)
    (tier tier' language language' : string) (s : nat) :
  lower tier = lower tier' →
  lower language = lower language' →
  add_char_noise o text tier language s = add_char_noise o text tier' language' s ∧
  add_char_noise o text (lower tier) (lower language) s
    = add_char_noise o text tier language s.
Proof.
  intros Ht Hl. unfold add_char_noise, add_char_noise_in.
  rewrite Ht, Hl, !lower_idempotent. done.
Qed.

Lemma names_are_case_insensitive_witness :
  add_char_noise two_swaps abcdefgh "HIGH" "Igbo" 0
    = add_char_noise two_swaps abcdefgh "High" "IGBO" 0 ∧
  add_char_noise two_swaps abcdefgh (lower "HIGH") (lower "Igbo") 0
    = add_char_noise two_swaps abcdefgh "HIGH" "Igbo" 0.
Proof.
  apply (names_are_case_insensitive two_swaps abcdefgh "HIGH" "High" "Igbo" "IGBO" 0).
  - reflexivity.
  - reflexivity.
Defined.

(** ** The number of modifications *)

Lemma num_chars_closed (a : Z) (b : positive) (n : nat) :
  num_chars (a # b) n = Z.to_nat (a * Z.of_nat n / Z.pos b).
Proof. unfold num_chars, Qfloor. cbn. by rewrite Pos.mul_1_r. Qed.

(** X20. The number of targeted characters is [n / 20] at low,
    [3 n / 20] at medium and [n / 4] at high, so never more than a quarter
    of the text (the sample is always smaller than its population), and a
    text of fewer than four characters comes back unchanged at every tier. *)
Theorem modification_count (o : outcome) (text : pystr) (noise_level language : string)
    (s : nat) (percentage : Q) (alphabet : pystr) :
  NOISE_LEVEL_PERCENTAGES !! lower noise_level = Some percentage →
  ALPHABETS !! lower language = Some alphabet →
  (lower noise_level = "low" → num_chars percentage (length text) = length text / 20) ∧
  (lower noise_level = "medium" → num_chars percentage (length text) = 3 * length text / 20) ∧
  (lower noise_level = "high" → num_chars percentage (length text) = length text / 4) ∧
  num_chars percentage (length text) ≤ length text / 4 ∧
  (length text < 4 →
     add_char_noise o text noise_level language s = Some (Call (Ok text) s [])).
Proof.
  intros Hlevel Hlang.
  pose proof (ALPHABETS_nonempty _ _ Hlang) as Hne.
  set (n := length text).
  assert (Hforms :
    (lower noise_level = "low" ∧ num_chars percentage n = n / 20) ∨
    (lower noise_level = "medium" ∧ num_chars percentage n = 3 * n / 20) ∨
    (lower noise_level = "high" ∧ num_chars percentage n = n / 4)).
  { unfold NOISE_LEVEL_PERCENTAGES in Hlevel.
    rewrite lookup_insert in Hlevel. case_decide as H1.
    { left. split; [done |]. injection Hlevel as <-. rewrite num_chars_closed.
      apply Nat2Z.inj. rewrite Z2Nat.id by (apply Z.div_pos; lia).
      rewrite Nat2Z.inj_div. change (Z.of_nat 20) with 20%Z.
      replace (5 * Z.of_nat n)%Z with (Z.of_nat n * 5)%Z by lia.
      change 100%Z with (20 * 5)%Z. by rewrite Z.div_mul_cancel_r by lia. }
    rewrite lookup_insert in Hlevel. case_decide as H2.
    { right. left. split; [done |]. injection Hlevel as <-. rewrite num_chars_closed.
      apply Nat2Z.inj. rewrite Z2Nat.id by (apply Z.div_pos; lia).
      rewrite Nat2Z.inj_div, Nat2Z.inj_mul. change (Z.of_nat 20) with 20%Z.
      change (Z.of_nat 3) with 3%Z.
      replace (15 * Z.of_nat n)%Z with (3 * Z.of_nat n * 5)%Z by lia.
      change 100%Z with (20 * 5)%Z. by rewrite Z.div_mul_cancel_r by lia. }
    rewrite lookup_insert in Hlevel. case_decide as H3.
    { right. right. split; [done |]. injection Hlevel as <-. rewrite num_chars_closed.
      apply Nat2Z.inj. rewrite Z2Nat.id by (apply Z.div_pos; lia).
      rewrite Nat2Z.inj_div. change (Z.of_nat 4) with 4%Z.
      replace (25 * Z.of_nat n)%Z with (Z.of_nat n * 25)%Z by lia.
      change 100%Z with (4 * 25)%Z. by rewrite Z.div_mul_cancel_r by lia. }
    by rewrite lookup_empty in Hlevel. }
  assert (Hquarter : num_chars percentage n ≤ n / 4).
  { destruct Hforms as [[_ ->] | [[_ ->] | [_ ->]]]; [| | done].
    - apply Nat.div_le_lower_bound; [lia |].
      pose proof (Nat.Div0.mul_div_le n 20). lia.
    - apply Nat.div_le_lower_bound; [lia |].
      pose proof (Nat.Div0.mul_div_le (3 * n) 20). lia. }
  split; [| split; [| split; [| split; [done |]]]].
  - intros Hl. destruct Hforms as [[_ ?] | [[? _] | [? _]]]; [done | |]; congruence.
  - intros Hl. destruct Hforms as [[? _] | [[_ ?] | [? _]]]; [| done |]; congruence.
  - intros Hl. destruct Hforms as [[? _] | [[? _] | [_ ?]]]; [| | done]; congruence.
  - intros Hshort.
    assert (Hk : num_chars percentage n = 0).
    { rewrite (Nat.div_small n 4) in Hquarter by done. lia. }
    unfold add_char_noise, add_char_noise_in. fold n.
    destruct (n =? 0) eqn:Hn0.
    + apply Nat.eqb_eq in Hn0. unfold n in Hn0. by destruct text.
    + rewrite Hlevel, Hlang, Hk. by destruct alphabet.
Qed.

Lemma modification_count_witness :
  (lower "Medium" = "low" → num_chars (15 # 100) (length abc) = length abc / 20) ∧
  (lower "Medium" = "medium" → num_chars (15 # 100) (length abc) = 3 * length abc / 20) ∧
  (lower "Medium" = "high" → num_chars (15 # 100) (length abc) = length abc / 4) ∧
  num_chars (15 # 100) (length abc) ≤ length abc / 4 ∧
  (length abc < 4 →
     add_char_noise two_swaps abc "Medium" "Hindi" 0 = Some (Call (Ok abc) 0 [])).
Proof.
  apply (modification_count two_swaps abc "Medium" "Hindi" 0 (15 # 100) hindi_alphabet).
  - vm_compute. reflexivity.
  - vm_compute. reflexivity.
Defined.

End CharacterNoiseMore.

(** * Further properties of the image noise engine *)

Module ImageNoiseMore.
Import ImageNoiseFunctions ImageNoiseSpec ImageNoiseProps.

(** ** Loading *)

Lemma load_image_held (w : world) (img_input : image_input) (a : ndarray) :
  held_by w img_input a → loadable a →
  _load_image w img_input = (Ok (fst (alloc w a)), snd (alloc w a)).
Proof.
  intros Hheld [Hdim Hsize]. unfold _load_image.
  destruct img_input as [p | ref]; simpl in Hheld; rewrite Hheld;
    destruct (alloc_fresh w a) as (_ & Hnew & _);
    destruct (alloc w a) as [l w'] eqn:Halloc; simpl in *; rewrite Hnew;
    (assert (Hd : (ndim a =? 2) || (ndim a =? 3) = true)
       by (destruct Hdim as [-> | ->]; done));
    rewrite Hd; simpl; by rewrite (proj2 (Nat.eqb_neq _ _) Hsize).
Qed.

Lemma load_image_ok_inv (w w' : world) (img_input : image_input) (img : nat) :
  _load_image w img_input = (Ok img, w') →
  heap w !! img = None ∧
  (∃ a, held_by w img_input a ∧ loadable a ∧ heap w' !! img = Some a) ∧
  (∀ ref, ref ≠ img → heap w' !! ref = heap w !! ref) ∧
  files w' = files w.
Proof.
  unfold _load_image. intros H.
  assert (Hsrc : ∃ a, held_by w img_input a).
  { destruct img_input as [p | ref]; simpl.
    - destruct (files w !! p) as [[a |] |]; [eauto | congruence | congruence].
    - destruct (heap w !! ref) as [a |]; [eauto | congruence]. }
  destruct Hsrc as [a Hheld].
  destruct (alloc_fresh w a) as (Hfresh & Hnew & Hold).
  assert (Hloaded :
    match img_input with
    | Path p =>
        match files w !! p with
        | None => (Raise FileNotFoundError, w)
        | Some None => (Raise IOError, w)
        | Some (Some a) => let '(l, w') := alloc w a in (Ok l, w')
        end
    | Array ref =>
        match heap w !! ref with
        | None => (Raise TypeError, w)
        | Some a => let '(l, w') := alloc w a in (Ok l, w')
        end
    end = (Ok (fst (alloc w a)), snd (alloc w a))).
  { destruct img_input as [p | ref]; simpl in Hheld; rewrite Hheld;
      by destruct (alloc w a). }
  rewrite Hloaded, Hnew in H.
  destruct ((ndim a =? 2) || (ndim a =? 3)) eqn:Hd; simpl in H; [| congruence].
  destruct (size a =? 0) eqn:Hs; [congruence |].
  injection H as <- <-. split; [done |]. split; [| split; [done |]].
  - exists a. split; [done |]. split; [| done]. split.
    + apply orb_true_iff in Hd as [Hd | Hd]; apply Nat.eqb_eq in Hd; auto.
    + by apply Nat.eqb_neq.
  - unfold alloc. done.
Qed.

(** X11. A successful load hands back a reference that was not in use,
    holding the image of the input (a copy of the array, or the decoded
    file), which has two or three dimensions and at least one sample; all
    arrays and files that existed are as they were. *)
Theorem load_image_is_independent_copy (w w' : world) (img_input : image_input)
    (img : nat) :
  _load_image w img_input = (Ok img, w') →
  heap w !! img = None ∧
  (∃ a, held_by w img_input a ∧ loadable a ∧ heap w' !! img = Some a) ∧
  (∀ ref, ref ≠ img → heap w' !! ref = heap w !! ref) ∧
  files w' = files w.
Proof.
  apply load_image_ok_inv.
Qed.

Lemma load_image_is_independent_copy_witness :
  heap disk_world !! 1 = None ∧
  (∃ a, held_by disk_world (Path "cat.png") a ∧ loadable a ∧
        heap (snd (alloc disk_world corner9)) !! 1 = Some a) ∧
  (∀ ref, ref ≠ 1 → heap (snd (alloc disk_world corner9)) !! ref = heap disk_world !! ref) ∧
  files (snd (alloc disk_world corner9)) = files disk_world.
Proof.
  apply (load_image_is_independent_copy disk_world (snd (alloc disk_world corner9))
           (Path "cat.png") 1).
  vm_compute. reflexivity.
Defined.

(** X12. What a load raises: FileNotFoundError exactly for a path that
    does not exist, IOError exactly for a file that does not decode to an
    image, ValueError exactly when the array or the decoded image has
    neither two nor three dimensions or has no sample; for the first two
    the world is untouched. *)
Theorem load_image_errors (w : world) (img_input : image_input) :
  (fst (_load_image w img_input) = Raise FileNotFoundError ↔
     ∃ p, img_input = Path p ∧ files w !! p = None) ∧
  (fst (_load_image w img_input) = Raise IOError ↔
     ∃ p, img_input = Path p ∧ files w !! p = Some None) ∧
  (fst (_load_image w img_input) = Raise ValueError ↔
     ∃ a, held_by w img_input a ∧ ¬ loadable a) ∧
  (fst (_load_image w img_input) = Raise FileNotFoundError ∨
   fst (_load_image w img_input) = Raise IOError →
     snd (_load_image w img_input) = w).
Proof.
  assert (Hcases :
    (∃ p, img_input = Path p ∧ files w !! p = None ∧
          _load_image w img_input = (Raise FileNotFoundError, w)) ∨
    (∃ p, img_input = Path p ∧ files w !! p = Some None ∧
          _load_image w img_input = (Raise IOError, w)) ∨
    (∃ ref, img_input = Array ref ∧ heap w !! ref = None ∧
            _load_image w img_input = (Raise TypeError, w)) ∨
    (∃ a, held_by w img_input a ∧
          ((loadable a ∧ ∃ l w', _load_image w img_input = (Ok l, w')) ∨
           (¬ loadable a ∧ ∃ w', _load_image w img_input = (Raise ValueError, w'))))).
  { destruct img_input as [p | ref].
    - destruct (files w !! p) as [[a |] |] eqn:Hp.
      + right. right. right. exists a. split; [done |].
        destruct (decide (loadable a)) as [Hl | Hl].
        * left. split; [done |]. rewrite (load_image_held w (Path p) a); eauto.
        * right. split; [done |]. unfold _load_image. rewrite Hp.
          destruct (alloc_fresh w a) as (_ & Hnew & _).
          destruct (alloc w a) as [l w']. simpl in Hnew. rewrite Hnew.
          destruct ((ndim a =? 2) || (ndim a =? 3)) eqn:Hd; simpl; [| eauto].
          destruct (size a =? 0) eqn:Hs; [eauto |].
          exfalso. apply Hl. split.
          -- apply orb_true_iff in Hd as [Hd | Hd]; apply Nat.eqb_eq in Hd; auto.
          -- by apply Nat.eqb_neq.
      + right. left. exists p. unfold _load_image. by rewrite Hp.
      + left. exists p. unfold _load_image. by rewrite Hp.
    - destruct (heap w !! ref) as [a |] eqn:Href.
      + right. right. right. exists a. split; [done |].
        destruct (decide (loadable a)) as [Hl | Hl].
        * left. split; [done |]. rewrite (load_image_held w (Array ref) a); eauto.
        * right. split; [done |]. unfold _load_image. rewrite Href.
          destruct (alloc_fresh w a) as (_ & Hnew & _).
          destruct (alloc w a) as [l w']. simpl in Hnew. rewrite Hnew.
          destruct ((ndim a =? 2) || (ndim a =? 3)) eqn:Hd; simpl; [| eauto].
          destruct (size a =? 0) eqn:Hs; [eauto |].
          exfalso. apply Hl. split.
          -- apply orb_true_iff in Hd as [Hd | Hd]; apply Nat.eqb_eq in Hd; auto.
          -- by apply Nat.eqb_neq.
      + right. right. left. exists ref. unfold _load_image. by rewrite Href. }
  assert (Hfun : ∀ a b, held_by w img_input a → held_by w img_input b → a = b).
  { intros a b. destruct img_input; simpl; congruence. }
  destruct Hcases as [(p & -> & Hp & Hl) | [(p & -> & Hp & Hl) | [(ref & -> & Hr & Hl)
                     | (a & Hheld & [[Hok (l & w' & Hl)] | [Hbad (w' & Hl)]])]]];
    rewrite Hl; simpl.
  - split; [split; [eauto | done] |]. split; [split; [done |] |].
    { intros (q & [= <-] & Hq). congruence. }
    split; [split; [done |] | done].
    intros (a & Ha & _). simpl in Ha. congruence.
  - split; [split; [done |] |].
    { intros (q & [= <-] & Hq). congruence. }
    split; [split; [eauto | done] |]. split; [split; [done |] | done].
    intros (a & Ha & _). simpl in Ha. congruence.
  - split; [split; [done | by intros (q & ? & _)] |].
    split; [split; [done | by intros (q & ? & _)] |].
    split; [split; [done |] | by intros [? | ?]].
    intros (a & Ha & _). simpl in Ha. congruence.
  - split; [split; [done |] |].
    { intros (q & -> & Hq). simpl in Hheld. congruence. }
    split; [split; [done |] |].
    { intros (q & -> & Hq). simpl in Hheld. congruence. }
    split; [split; [done |] | by intros [? | ?]].
    intros (b & Hb & Hnb). by rewrite (Hfun _ _ Hheld Hb) in Hok.
  - split; [split; [done |] |].
    { intros (q & -> & Hq). simpl in Hheld. congruence. }
    split; [split; [done |] |].
    { intros (q & -> & Hq). simpl in Hheld. congruence. }
    split; [split; [eauto | done] | by intros [? | ?]].
Qed.

(** ** Blur *)

Lemma apply_gaussian_blur_held (GaussianBlur : ndarray → Q → Q → ndarray) (w : world)
    (img_input : image_input) (blur_level : string) (a : ndarray) (sigma : Q) :
  held_by w img_input a → loadable a →
  blur_sigma blur_level = Ok sigma →
  ∃ blurred w',
    apply_gaussian_blur GaussianBlur w img_input blur_level = (Ok blurred, w') ∧
    heap w !! blurred = None ∧
    heap w' !! blurred = Some (GaussianBlur a sigma sigma) ∧
    (∀ ref, is_Some (heap w !! ref) → heap w' !! ref = heap w !! ref) ∧
    files w' = files w.
Proof.
  intros Hheld Hload Hsigma. unfold apply_gaussian_blur.
  rewrite (load_image_held w img_input a Hheld Hload), Hsigma.
  destruct (alloc_fresh w a) as (Hfresh & Hnew & Hold).
  destruct (alloc w a) as [l w1] eqn:Halloc. cbn [fst snd] in *. rewrite Hnew.
  destruct (alloc_fresh w1 (GaussianBlur a sigma sigma)) as (Hfresh2 & Hnew2 & Hold2).
  destruct (alloc w1 (GaussianBlur a sigma sigma)) as [l2 w2] eqn:Halloc2.
  cbn [fst snd] in *.
  assert (Hl2 : l2 ≠ l) by (intros ->; congruence).
  exists l2, w2. split; [done |]. split; [| split; [done |]].
  - by rewrite <- (Hold l2 Hl2).
  - split.
    + intros ref Href.
      assert (ref ≠ l) by (intros ->; destruct Href; congruence).
      assert (ref ≠ l2).
      { intros ->. rewrite (Hold l2 Hl2) in Hfresh2. destruct Href; congruence. }
      rewrite Hold2 by done. by apply Hold.
    + unfold alloc in Halloc, Halloc2. injection Halloc as _ <-.
      by injection Halloc2 as _ <-.
Qed.

(** X13. For an input that loads and a recognised level, the blur returns
    a reference that was not in use, holding [GaussianBlur] of the image
    with the sigma of the level on both axes; every array that existed,
    the caller's included, and every file is as it was. *)
Theorem blur_returns_new_array (GaussianBlur : ndarray → Q → Q → ndarray) (w : world)
    (img_input : image_input) (blur_level : string) (a : ndarray) (sigma : Q) :
  held_by w img_input a → loadable a →
  blur_sigma blur_level = Ok sigma →
  ∃ blurred w',
    apply_gaussian_blur GaussianBlur w img_input blur_level = (Ok blurred, w') ∧
    heap w !! blurred = None ∧
    heap w' !! blurred = Some (GaussianBlur a sigma sigma) ∧
    (∀ ref, is_Some (heap w !! ref) → heap w' !! ref = heap w !! ref) ∧
    files w' = files w.
Proof.
  apply apply_gaussian_blur_held.
Qed.

Lemma blur_returns_new_array_witness :
  ∃ blurred w',
    apply_gaussian_blur (λ a _ _, a) disk_world (Path "cat.png") "medium" = (Ok blurred, w') ∧
    heap disk_world !! blurred = None ∧
    heap w' !! blurred = Some corner9 ∧
    (∀ ref, is_Some (heap disk_world !! ref) → heap w' !! ref = heap disk_world !! ref) ∧
    files w' = files disk_world.
Proof.
  apply (blur_returns_new_array (λ a _ _, a) disk_world (Path "cat.png") "medium"
           corner9 (3 # 1)).
  - vm_compute. reflexivity.
  - apply (bool_decide_unpack _). vm_compute. exact I.
  - vm_compute. reflexivity.
Defined.

(** ** Occlusion *)

Lemma apply_occlusion_held (drawn : nat → nat) (w : world) (img_input : image_input)
    (occlusion_level : string) (s : nat) (a : ndarray) (ratio : Q) :
  held_by w img_input a → loadable a →
  occlusion_ratio occlusion_level = Ok ratio →
  channels a ≤ 4 →
  let p := occlusion_patch ratio (nth 0 (shape a) 0) (nth 1 (shape a) 0)
             (drawn s) (drawn (S s)) in
  let img := fst (alloc w a) in
  apply_occlusion drawn w img_input occlusion_level s =
    (Ok img,
     World (files w)
       (<[img := cv_rectangle a (start_x p) (start_y p) (end_x p) (end_y p) (cv_mean a)]>
          (heap (snd (alloc w a)))),
     S (S s)).
Proof.
  intros Hheld Hload Hratio Hch p img. unfold apply_occlusion.
  rewrite (load_image_held w img_input a Hheld Hload).
  destruct (alloc_fresh w a) as (_ & Hnew & _).
  subst img. destruct (alloc w a) as [l w1] eqn:Halloc. simpl in *.
  rewrite Hnew, Hratio. unfold cv_mean_checked. rewrite (proj2 (Nat.ltb_ge _ _) Hch).
  unfold alloc in Halloc. by injection Halloc as _ <-.
Qed.

(** With more than four channels the call raises in [cv.mean], after the
    copy and the two draws. *)
Lemma apply_occlusion_many_channels (drawn : nat → nat) (w : world)
    (img_input : image_input) (occlusion_level : string) (s : nat) (a : ndarray)
    (ratio : Q) :
  held_by w img_input a → loadable a →
  occlusion_ratio occlusion_level = Ok ratio →
  4 < channels a →
  apply_occlusion drawn w img_input occlusion_level s =
    (Raise cv2_error, snd (alloc w a), S (S s)).
Proof.
  intros Hheld Hload Hratio Hch. unfold apply_occlusion.
  rewrite (load_image_held w img_input a Hheld Hload).
  destruct (alloc_fresh w a) as (_ & Hnew & _).
  destruct (alloc w a) as [l w1] eqn:Halloc. simpl in *.
  rewrite Hnew, Hratio. unfold cv_mean_checked.
  by rewrite (proj2 (Nat.ltb_lt _ _) Hch).
Qed.

Lemma load_image_world (w : world) (img_input : image_input) :
  snd (_load_image w img_input) = w ∨
  ∃ a, snd (_load_image w img_input) = snd (alloc w a).
Proof.
  unfold _load_image. destruct img_input as [p | ref].
  - destruct (files w !! p) as [[a |] |]; [| by left | by left].
    right. exists a. destruct (alloc w a) as [l w1]. simpl.
    destruct (heap w1 !! l); [| done].
    destruct (negb _); [done |]. by destruct (size _ =? 0).
  - destruct (heap w !! ref) as [a |]; [| by left].
    right. exists a. destruct (alloc w a) as [l w1]. simpl.
    destruct (heap w1 !! l); [| done].
    destruct (negb _); [done |]. by destruct (size _ =? 0).
Qed.

Lemma load_image_frame (w : world) (img_input : image_input) :
  (∀ ref, is_Some (heap w !! ref) →
     heap (snd (_load_image w img_input)) !! ref = heap w !! ref) ∧
  files (snd (_load_image w img_input)) = files w.
Proof.
  destruct (load_image_world w img_input) as [-> | [a ->]]; [done |].
  destruct (alloc_fresh w a) as (Hfresh & _ & Hold). split; [| done].
  intros ref Href. apply Hold. intros ->. destruct Href. congruence.
Qed.

(** X14. Whatever the input and the level, an occlusion call leaves every
    array that existed and every file as it was.  It makes exactly two draws
    when it returns an array; when it raises it has made none, except that
    [cv2.error], raised exactly when the image loads, the level is recognised
    and the image has more than four channels, comes after both draws. *)
Theorem occlusion_effects (drawn : nat → nat) (w : world) (img_input : image_input)
    (occlusion_level : string) (s : nat) :
  let r := apply_occlusion drawn w img_input occlusion_level s in
  (∀ ref, is_Some (heap w !! ref) → heap (snd (fst r)) !! ref = heap w !! ref) ∧
  files (snd (fst r)) = files w ∧
  match fst (fst r) with
  | Ok _ => snd r = S (S s)
  | Raise e => if decide (e = cv2_error) then snd r = S (S s) else snd r = s
  end ∧
  (fst (fst r) = Raise cv2_error ↔
     ∃ a ratio, held_by w img_input a ∧ loadable a ∧
                occlusion_ratio occlusion_level = Ok ratio ∧ 4 < channels a).
Proof.
  cbv zeta.
  destruct (load_image_frame w img_input) as [Hkeep Hfiles].
  assert (Hfun : ∀ a b, held_by w img_input a → held_by w img_input b → a = b).
  { intros a b. destruct img_input; simpl; congruence. }
  destruct (_load_image w img_input) as [[img | e] w1] eqn:Hl.
  - destruct (load_image_ok_inv w w1 img_input img Hl)
      as (Hfresh & (a & Hheld & Hload & Hnew) & _ & _).
    destruct (occlusion_ratio occlusion_level) as [ratio | e] eqn:Hratio.
    + destruct (decide (channels a ≤ 4)) as [Hch | Hch].
      * rewrite (apply_occlusion_held drawn w img_input occlusion_level s a ratio
                   Hheld Hload Hratio Hch).
        cbn [fst snd heap files].
        destruct (alloc_fresh w a) as (Hfresh' & _ & Hold).
        split; [| split; [done | split; [done |]]].
        -- intros ref Href.
           assert (ref ≠ fst (alloc w a)) by (intros ->; destruct Href; congruence).
           rewrite lookup_insert_ne by done. by apply Hold.
        -- split; [done |]. intros (b & r' & Hb & _ & _ & Hmany).
           rewrite (Hfun _ _ Hb Hheld) in Hmany. lia.
      * rewrite (apply_occlusion_many_channels drawn w img_input occlusion_level s a ratio
                   Hheld Hload Hratio) by lia.
        cbn [fst snd].
        destruct (alloc_fresh w a) as (Hfresh' & _ & Hold).
        split; [| split; [done | split; [by rewrite decide_True |]]].
        -- intros ref Href. apply Hold. intros ->. destruct Href. congruence.
        -- split; [| done]. intros _. exists a, ratio.
           split; [done |]. split; [done |]. split; [done | lia].
    + unfold apply_occlusion. rewrite Hl, Hnew, Hratio. cbn [fst snd] in *.
      assert (He : e = ValueError).
      { unfold occlusion_ratio in Hratio. repeat case_decide; congruence. }
      subst e. split; [done |]. split; [done |]. split; [done |].
      split; [done |]. intros (b & r' & _ & _ & Hr & _). congruence.
  - unfold apply_occlusion. rewrite Hl. cbn [fst snd] in *.
    split; [done |]. split; [done |].
    assert (He : e ≠ cv2_error).
    { unfold _load_image in Hl.
      destruct img_input as [p | ref].
      - destruct (files w !! p) as [[a |] |]; [| congruence | congruence].
        destruct (alloc w a) as [l w2]. destruct (heap w2 !! l); [| congruence].
        destruct (negb _); [congruence |]. destruct (size _ =? 0); congruence.
      - destruct (heap w !! ref) as [a |]; [| congruence].
        destruct (alloc w a) as [l w2]. destruct (heap w2 !! l); [| congruence].
        destruct (negb _); [congruence |]. destruct (size _ =? 0); congruence. }
    split; [by rewrite decide_False |].
    split; [congruence |]. intros (a & ratio & Hheld & Hload & _ & _).
    rewrite (load_image_held w img_input a Hheld Hload) in Hl. congruence.
Qed.


Lemma channels_positive (a : ndarray) : loadable a → 1 ≤ channels a.
Proof.
  unfold loadable, ndim, size, channels. intros [Hdim Hsize].
  destruct (shape a) as [| h [| w [| c [| ? ?]]]]; simpl in *; try lia.
  all: destruct c; lia.
Qed.



(** ** Patch geometry *)

Lemma int_sqrt_times_mono (r1 r2 : Q) (d : nat) :
  (r1 <= r2)%Q → int_sqrt_times r1 d ≤ int_sqrt_times r2 d.
Proof.
  intros Hr. unfold int_sqrt_times.
  apply Z2Nat.inj_le; [apply Z.sqrt_nonneg | apply Z.sqrt_nonneg |].
  apply Z.sqrt_le_mono, Qfloor_resp_le.
  apply Qmult_le_compat_r; [done |].
  change 0%Q with (inject_Z 0). rewrite <- Zle_Qle. nia.
Qed.

(** X18. A higher tier never gives a smaller patch: on every image and
    for all draws, height and width of the patch grow from low to medium
    to high. *)
Theorem patch_grows_with_tier (img_height img_width ry rx ry' rx' : nat)
    (level level' : string) (ratio ratio' : Q) :
  occlusion_ratio level = Ok ratio →
  occlusion_ratio level' = Ok ratio' →
  (level, level') ∈ [("low", "medium"); ("medium", "high"); ("low", "high")] →
  patch_h (occlusion_patch ratio img_height img_width ry rx)
    ≤ patch_h (occlusion_patch ratio' img_height img_width ry' rx') ∧
  patch_w (occlusion_patch ratio img_height img_width ry rx)
    ≤ patch_w (occlusion_patch ratio' img_height img_width ry' rx').
Proof.
  intros Hr Hr' Hpair.
  assert (Hle : (ratio <= ratio')%Q).
  { rewrite !elem_of_cons in Hpair.
    destruct Hpair as [[= -> ->] | [[= -> ->] | [[= -> ->] | Hnil]]];
      [| | | by apply elem_of_nil in Hnil];
      vm_compute in Hr, Hr'; injection Hr as <-; injection Hr' as <-; by vm_compute. }
  unfold occlusion_patch. cbn [patch_h patch_w].
  pose proof (int_sqrt_times_mono ratio ratio' img_height Hle).
  pose proof (int_sqrt_times_mono ratio ratio' img_width Hle). lia.
Qed.

Lemma patch_grows_with_tier_witness :
  patch_h (occlusion_patch (8 # 100) 300 400 5 9)
    ≤ patch_h (occlusion_patch (40 # 100) 300 400 7 1) ∧
  patch_w (occlusion_patch (8 # 100) 300 400 5 9)
    ≤ patch_w (occlusion_patch (40 # 100) 300 400 7 1).
Proof.
  apply (patch_grows_with_tier 300 400 5 9 7 1 "low" "high" (8 # 100) (40 # 100)).
  - vm_compute. reflexivity.
  - vm_compute. reflexivity.
  - apply (bool_decide_unpack _). vm_compute. exact I.
Defined.

(** X16. Where neither side is clamped up to one pixel, the patch covers
    at most the fraction [ratio] of the area of the image. *)
Theorem patch_area_within_ratio (occlusion_level : string) (ratio : Q)
    (img_height img_width ry rx : nat) :
  occlusion_ratio occlusion_level = Ok ratio →
  1 ≤ int_sqrt_times ratio img_height →
  1 ≤ int_sqrt_times ratio img_width →
  let p := occlusion_patch ratio img_height img_width ry rx in
  (inject_Z (Z.of_nat (patch_h p * patch_w p))
     <= ratio * inject_Z (Z.of_nat (img_height * img_width)))%Q.
Proof.
  intros Hratio Hh Hw p.
  destruct (occlusion_ratio_range _ _ Hratio) as [Hr0 _].
  destruct (int_sqrt_times_spec ratio img_height Hr0) as [Hsh _].
  destruct (int_sqrt_times_spec ratio img_width Hr0) as [Hsw _].
  unfold p, occlusion_patch. cbn [patch_h patch_w].
  rewrite !Nat.max_r by done.
  set (qh := int_sqrt_times ratio img_height) in *.
  set (qw := int_sqrt_times ratio img_width) in *.
  destruct ratio as [a b]. unfold Qle in *. cbn in Hr0, Hsh, Hsw |- *.
  rewrite ?Z.mul_1_r, ?Pos.mul_1_r in *.
  rewrite !Nat2Z.inj_mul.
  apply Z.square_le_simpl_nonneg; [nia |].
  replace ((Z.of_nat qh * Z.of_nat qw * Z.pos b) * (Z.of_nat qh * Z.of_nat qw * Z.pos b))%Z
    with ((Z.of_nat qh * Z.of_nat qh * Z.pos b) * (Z.of_nat qw * Z.of_nat qw * Z.pos b))%Z
    by ring.
  replace ((a * (Z.of_nat img_height * Z.of_nat img_width))
           * (a * (Z.of_nat img_height * Z.of_nat img_width)))%Z
    with ((a * (Z.of_nat img_height * Z.of_nat img_height))
          * (a * (Z.of_nat img_width * Z.of_nat img_width)))%Z by ring.
  apply Z.mul_le_mono_nonneg; nia.
Qed.

Lemma patch_area_within_ratio_witness :
  let p := occlusion_patch (40 # 100) 100 100 37 5 in
  (inject_Z (Z.of_nat (patch_h p * patch_w p))
     <= (40 # 100) * inject_Z (Z.of_nat (100 * 100)))%Q.
Proof.
  apply (patch_area_within_ratio "high" (40 # 100) 100 100 37 5).
  - vm_compute. reflexivity.
  - vm_compute. lia.
  - vm_compute. lia.
Defined.

(** X17. On an axis of two pixels or more the patch is strictly shorter
    than the image, so that more than one placement exists there. *)
Theorem patch_leaves_room (occlusion_level : string) (ratio : Q)
    (img_height img_width ry rx : nat) :
  occlusion_ratio occlusion_level = Ok ratio →
  let p := occlusion_patch ratio img_height img_width ry rx in
  (2 ≤ img_height → patch_h p < img_height) ∧
  (2 ≤ img_width → patch_w p < img_width).
Proof.
  intros Hratio p.
  assert (Hlt : ∀ d, 2 ≤ d → Nat.max 1 (int_sqrt_times ratio d) < d).
  { intros d Hd.
    destruct (occlusion_ratio_range _ _ Hratio) as [Hr0 Hr1].
    pose proof (int_sqrt_times_le ratio d Hr1) as Hle.
    destruct (int_sqrt_times_spec ratio d Hr0) as [Hs _].
    destruct (decide (int_sqrt_times ratio d = d)) as [Heq | Hne]; [| lia].
    exfalso. rewrite Heq in Hs.
    unfold occlusion_ratio in Hratio.
    repeat case_decide; try congruence; injection Hratio as <-;
      unfold Qle in Hs; cbn in Hs; nia. }
  unfold p, occlusion_patch. cbn [patch_h patch_w]. split; apply Hlt.
Qed.

Lemma patch_leaves_room_witness :
  let p := occlusion_patch (8 # 100) 2 3 0 0 in
  (2 ≤ 2 → patch_h p < 2) ∧ (2 ≤ 3 → patch_w p < 3).
Proof.
  apply (patch_leaves_room "low" (8 # 100) 2 3 0 0).
  vm_compute. reflexivity.
Defined.

(** ** Composition *)

(** X19. Occlusion followed by blur, as the demonstration chains them: on
    an in-memory array that loads and two recognised levels, both calls
    return; the blurred array is [GaussianBlur] of the occluded one, and the
    caller's array and the occluded array are both intact at the end. *)
Theorem occlusion_then_blur (GaussianBlur : ndarray → Q → Q → ndarray)
    (drawn : nat → nat) (w : world) (ref : nat) (a : ndarray)
    (occlusion_level blur_level : string) (ratio sigma : Q) (s : nat) :
  heap w !! ref = Some a → loadable a →
  channels a ≤ 4 →
  occlusion_ratio occlusion_level = Ok ratio →
  blur_sigma blur_level = Ok sigma →
  ∃ occluded w1 a1 blurred w2,
    apply_occlusion drawn w (Array ref) occlusion_level s = (Ok occluded, w1, S (S s)) ∧
    heap w1 !! occluded = Some a1 ∧
    apply_gaussian_blur GaussianBlur w1 (Array occluded) blur_level = (Ok blurred, w2) ∧
    heap w2 !! blurred = Some (GaussianBlur a1 sigma sigma) ∧
    heap w2 !! occluded = Some a1 ∧
    heap w2 !! ref = Some a.
Proof.
  intros Href Hload Hch Hratio Hsigma.
  pose proof (apply_occlusion_held drawn w (Array ref) occlusion_level s a ratio
                Href Hload Hratio Hch) as Hocc. cbv zeta in Hocc.
  destruct (alloc_fresh w a) as (Hfresh & Hnew & Hold).
  set (occluded := fst (alloc w a)) in *.
  set (a1 := cv_rectangle a _ _ _ _ _) in Hocc.
  set (w1 := World _ _) in Hocc.
  assert (Hne : ref ≠ occluded) by (intros ->; congruence).
  assert (H1 : heap w1 !! occluded = Some a1) by apply lookup_insert_eq.
  assert (Hkeep : heap w1 !! ref = Some a).
  { unfold w1. cbn [heap]. rewrite lookup_insert_ne by done.
    rewrite Hold by done. done. }
  assert (Hload1 : loadable a1) by done.
  destruct (apply_gaussian_blur_held GaussianBlur w1 (Array occluded) blur_level a1 sigma
              H1 Hload1 Hsigma) as (blurred & w2 & Hblur & _ & Hb & Hkeep2 & _).
  exists occluded, w1, a1, blurred, w2.
  split; [done |]. split; [done |]. split; [done |]. split; [done |].
  split.
  - rewrite Hkeep2 by eauto. done.
  - rewrite Hkeep2 by eauto. done.
Qed.

Lemma occlusion_then_blur_witness :
  ∃ occluded w1 a1 blurred w2,
    apply_occlusion (λ _, 0) corner9_world (Array 0) "medium" 0 = (Ok occluded, w1, 2) ∧
    heap w1 !! occluded = Some a1 ∧
    apply_gaussian_blur (λ a _ _, a) w1 (Array occluded) "medium" = (Ok blurred, w2) ∧
    heap w2 !! blurred = Some a1 ∧
    heap w2 !! occluded = Some a1 ∧
    heap w2 !! 0 = Some corner9.
Proof.
  apply (occlusion_then_blur (λ a _ _, a) (λ _, 0) corner9_world 0 corner9
           "medium" "medium" (20 # 100) (3 # 1) 0).
  - vm_compute. reflexivity.
  - apply (bool_decide_unpack _). vm_compute. exact I.
  - vm_compute. lia.
  - vm_compute. reflexivity.
  - vm_compute. reflexivity.
Defined.

(** ** Flat images *)

Lemma channel_samples_member (a : ndarray) (k : nat) (v : Z) :
  data a !! k = Some v → v ∈ channel_samples a (sample_c a k).
Proof.
  intros Hk. unfold channel_samples. apply list_elem_of_omap.
  exists (k, v). split.
  - apply list_elem_of_lookup. exists k. by rewrite list_lookup_imap, Hk.
  - cbn. unfold sample_c. by rewrite Nat.eqb_refl.
Qed.

Lemma channel_samples_from_data (a : ndarray) (c : nat) (v : Z) :
  v ∈ channel_samples a c → v ∈ data a.
Proof.
  unfold channel_samples. intros ([k x] & Hin & Hx)%list_elem_of_omap.
  apply list_elem_of_lookup in Hin as [j Hj].
  rewrite list_lookup_imap in Hj.
  destruct (data a !! j) as [y |] eqn:Hy; [| done]. cbn in Hj, Hx.
  injection Hj as <- <-. destruct (_ =? _); [| done]. injection Hx as <-.
  eapply list_elem_of_lookup_2. eassumption.
Qed.

Lemma sum_of_equal (v : Z) (l : list Z) :
  Forall (λ x, x = v) l → foldr Z.add 0%Z l = (v * Z.of_nat (length l))%Z.
Proof.
  induction 1 as [| x l -> _ IH]; simpl; [lia |]. rewrite IH. lia.
Qed.

Lemma cvRound_of_integer_mean (v : Z) (n : Z) :
  (0 < n)%Z → cvRound (inject_Z (v * n) / inject_Z n) = v.
Proof.
  intros Hn.
  assert (Hq : (inject_Z (v * n) / inject_Z n == inject_Z v)%Q).
  { rewrite inject_Z_mult. apply Qdiv_mult_l.
    intros H0. unfold Qeq in H0. cbn in H0. lia. }
  unfold cvRound. rewrite (Qfloor_comp _ _ Hq), Qfloor_Z.
  assert (Hlt : (inject_Z (v * n) / inject_Z n - inject_Z v ?= 1 # 2)%Q = Lt).
  { apply Qlt_alt. rewrite Hq. unfold Qminus. rewrite Qplus_opp_r. done. }
  by rewrite Hlt.
Qed.

(** X21. Occluding a flat image changes nothing: when every sample of an
    image of at most four channels has the same value, the array returned
    holds exactly the samples of the input, whatever the level and the
    draws (the mean of each channel is that value, and it converts back to
    itself). *)
Theorem occlusion_of_flat_image (drawn : nat → nat) (w : world) (img_input : image_input)
    (occlusion_level : string) (s : nat) (a : ndarray) (ratio : Q) (v : Z) :
  held_by w img_input a → loadable a →
  occlusion_ratio occlusion_level = Ok ratio →
  channels a ≤ 4 →
  (0 ≤ v ≤ 255)%Z →
  Forall (λ x, x = v) (data a) →
  ∃ img w',
    apply_occlusion drawn w img_input occlusion_level s = (Ok img, w', S (S s)) ∧
    heap w' !! img = Some a.
Proof.
  intros Hheld Hload Hratio Hch Hv Hflat.
  rewrite (apply_occlusion_held drawn w img_input occlusion_level s a ratio
             Hheld Hload Hratio Hch).
  eexists _, _. split; [reflexivity |]. cbn [heap].
  rewrite lookup_insert_eq. f_equal.
  unfold cv_rectangle.
  match goal with |- NdArray _ ?d = _ => assert (Hdata : d = data a) end;
    [| rewrite Hdata; by destruct a].
  apply list_eq. intros k. rewrite list_lookup_imap.
  destruct (data a !! k) as [x |] eqn:Hk; [| done]. cbn [fmap option_fmap option_map].
  f_equal. destruct (covered _ _ _ _ _ _); [| done].
  assert (Hx : x = v).
  { rewrite Forall_forall in Hflat. apply Hflat. by eapply list_elem_of_lookup_2. }
  pose proof (channels_positive a Hload) as Hpos.
  assert (Hc : sample_c a k < channels a).
  { unfold sample_c. apply Nat.mod_upper_bound. lia. }
  pose proof (channel_samples_member a k x Hk) as Hmem.
  assert (Hall : Forall (λ y, y = v) (channel_samples a (sample_c a k))).
  { rewrite Forall_forall. intros y Hy. rewrite Forall_forall in Hflat.
    apply Hflat. by eapply channel_samples_from_data. }
  assert (Hlen : (0 < Z.of_nat (length (channel_samples a (sample_c a k))))%Z).
  { destruct (channel_samples a (sample_c a k)); [by apply elem_of_nil in Hmem |].
    simpl. lia. }
  assert (Hmean : cv_mean a !! sample_c a k =
            Some (inject_Z (v * Z.of_nat (length (channel_samples a (sample_c a k))))
                  / inject_Z (Z.of_nat (length (channel_samples a (sample_c a k)))))%Q).
  { unfold cv_mean. rewrite list_lookup_fmap.
    assert (H4 : [0; 1; 2; 3] !! sample_c a k = Some (sample_c a k)).
    { assert (sample_c a k < 4) by lia.
      destruct (sample_c a k) as [| [| [| [| ?]]]]; try done; lia. }
    rewrite H4. cbn [fmap option_fmap option_map].
    rewrite (proj2 (Nat.ltb_lt _ _) Hc). by rewrite (sum_of_equal v _ Hall). }
  rewrite Hmean. unfold saturate_cast.
  rewrite cvRound_of_integer_mean by done. lia.
Qed.

Lemma occlusion_of_flat_image_witness :
  ∃ img w',
    apply_occlusion (λ _, 1) flat5_world (Array 0) "high" 0 = (Ok img, w', 2) ∧
    heap w' !! img = Some flat5.
Proof.
  apply (occlusion_of_flat_image (λ _, 1) flat5_world (Array 0) "high" 0 flat5
           (40 # 100) 5%Z).
  - vm_compute. reflexivity.
  - apply (bool_decide_unpack _). vm_compute. exact I.
  - vm_compute. reflexivity.
  - vm_compute. lia.
  - lia.
  - apply (bool_decide_unpack _). vm_compute. exact I.
Defined.

End ImageNoiseMore.
